(** * Conversion between Go dynamic values and the shipper's Value messages

    A shallow embedding of [pkg/helpers/struct.go]: the encoder [NewValue]
    (with [NewStruct] and [NewList]), the decoder [AsInterface] (with [AsMap]
    and [AsSlice]) and the seven variant constructors, followed by the
    properties of the conversion.

    Go's [interface{}] values are modelled by the type [Dyn]: a dynamic type
    together with the data the encoder can observe through reflection and
    type assertions.  A call of the encoder ends in one of three ways, a
    returned Value, a returned error or a run-time panic; the type [Result]
    keeps the three apart. *)

From Stdlib Require Import ZArith List String Ascii Bool Lia.
From Stdlib Require Import Floats.SpecFloat.
From Stdlib Require DecimalString.
Import ListNotations.

Local Open Scope string_scope.
Local Open Scope Z_scope.

Set Implicit Arguments.

(** Induction principles that reach through the containers the value trees
    are nested in. *)
Scheme All for prod.
Scheme All for list.
Scheme All for sum.
Scheme All for option.

(* ===================================================================== *)
(** ** Library functions the conversion calls *)
(* ===================================================================== *)

(** *** unicode/utf8 *)
Module utf8.

(** The value of a byte of a Go string. *)
Definition byte_val (c : ascii) : Z := Z.of_N (N_of_ascii c).

(** [RuneSelf]: bytes below it are single-byte runes. *)
Definition RuneSelf : Z := 0x80.

(** Bounds of a continuation byte. *)
Definition locb : Z := 0x80.
Definition hicb : Z := 0xBF.

(** The table [first] combined with [acceptRanges]: for a leading byte, the
    length of the sequence it starts and the range its second byte must lie
    in; [None] is the entry [xx] of an invalid leading byte. *)
Definition first (b : Z) : option (nat * Z * Z) :=
  if b <? 0xC2 then None
  else if b <=? 0xDF then Some (2%nat, locb, hicb)
  else if b =? 0xE0 then Some (3%nat, 0xA0, hicb)
  else if b <=? 0xEC then Some (3%nat, locb, hicb)
  else if b =? 0xED then Some (3%nat, locb, 0x9F)
  else if b <=? 0xEF then Some (3%nat, locb, hicb)
  else if b =? 0xF0 then Some (4%nat, 0x90, hicb)
  else if b <=? 0xF3 then Some (4%nat, locb, hicb)
  else if b =? 0xF4 then Some (4%nat, locb, 0x8F)
  else None.

Definition between (lo : Z) (c : ascii) (hi : Z) : bool :=
  (lo <=? byte_val c) && (byte_val c <=? hi).

(** [utf8.ValidString]: the string consists of well-formed UTF-8 sequences
    only. *)
Fixpoint ValidString (s : string) : bool :=
  match s with
  | EmptyString => true
  | String c0 r1 =>
    if byte_val c0 <? RuneSelf then ValidString r1 else
    match first (byte_val c0) with
    | None => false
    | Some (size, lo, hi) =>
      match r1 with
      | EmptyString => false
      | String c1 r2 =>
        if negb (between lo c1 hi) then false else
        if Nat.eqb size 2 then ValidString r2 else
        match r2 with
        | EmptyString => false
        | String c2 r3 =>
          if negb (between locb c2 hicb) then false else
          if Nat.eqb size 3 then ValidString r3 else
          match r3 with
          | EmptyString => false
          | String c3 r4 =>
            if negb (between locb c3 hicb) then false else ValidString r4
          end
        end
      end
    end
  end.

End utf8.

(** *** encoding/base64 *)
Module base64.

Definition encodeStd : string :=
  "ABCDEFGHIJKLMNOPQRSTUVWXYZabcdefghijklmnopqrstuvwxyz0123456789+/".

Definition StdPadding : ascii := "="%char.

(** The character of the standard alphabet for a 6-bit value. *)
Definition enc (i : Z) : ascii :=
  match String.get (Z.to_nat i) encodeStd with
  | Some c => c
  | None => StdPadding
  end.

Definition sextet (val : Z) (shift : Z) : ascii :=
  enc (Z.land (Z.shiftr val shift) 0x3F).

(** [base64.StdEncoding.EncodeToString]: three bytes become four characters;
    a remainder of one or two bytes is padded with [=]. *)
Fixpoint EncodeToString (src : list Z) : string :=
  match src with
  | [] => EmptyString
  | [a] =>
    let val := Z.shiftl a 16 in
    String (sextet val 18) (String (sextet val 12)
      (String StdPadding (String StdPadding EmptyString)))
  | [a; b] =>
    let val := Z.lor (Z.shiftl a 16) (Z.shiftl b 8) in
    String (sextet val 18) (String (sextet val 12)
      (String (sextet val 6) (String StdPadding EmptyString)))
  | a :: b :: c :: rest =>
    let val := Z.lor (Z.lor (Z.shiftl a 16) (Z.shiftl b 8)) c in
    String (sextet val 18) (String (sextet val 12)
      (String (sextet val 6) (String (sextet val 0) (EncodeToString rest))))
  end.

End base64.

(** *** float64 and package math *)

(** A float64 is an IEEE 754 binary64 datum. *)
Definition float64 : Type := spec_float.

Module math.

(** [math.IsNaN]: the argument is a not-a-number value. *)
Definition IsNaN (f : float64) : bool :=
  match f with
  | S754_nan => true
  | _ => false
  end.

(** [math.IsInf]: the argument is an infinity of the given sign; sign 0
    accepts both. *)
Definition IsInf (f : float64) (sign : Z) : bool :=
  match f with
  | S754_infinity neg =>
    ((0 <=? sign) && negb neg) || ((sign <=? 0) && neg)
  | _ => false
  end.

End math.

(** The conversion [float64(n)] of an integer: rounding to the nearest
    binary64, ties to even. *)
Definition float64_of_int (n : Z) : float64 := binary_normalize 53 1024 n 0 false.

(** *** time and timestamppb *)

(** A point in time: seconds since the Unix epoch, the nanoseconds within the
    second and the name of the location it is shown in. *)
Record Time : Type := mkTime { unixSec : Z; nanosecond : Z; location : string }.

(** [timestamppb.Timestamp]. *)
Record Timestamp : Type := mkTimestamp { Seconds : Z; Nanos : Z }.

Module timestamppb.

(** [timestamppb.New]. *)
Definition New (t : Time) : option Timestamp :=
  Some (mkTimestamp (unixSec t) (nanosecond t)).

(** The getters of a generated message accept a nil receiver. *)
Definition GetSeconds (x : option Timestamp) : Z :=
  match x with Some ts => Seconds ts | None => 0 end.
Definition GetNanos (x : option Timestamp) : Z :=
  match x with Some ts => Nanos ts | None => 0 end.

(** [time.Unix(sec, nsec).UTC()]: nanoseconds outside of [0, 1e9) are carried
    into the seconds. *)
Definition Unix_UTC (sec nsec : Z) : Time :=
  mkTime (sec + nsec / 1000000000) (nsec mod 1000000000) "UTC".

(** The method [AsTime] of a Timestamp pointer. *)
Definition AsTime (x : option Timestamp) : Time :=
  Unix_UTC (GetSeconds x) (GetNanos x).

End timestamppb.

(* ===================================================================== *)
(** ** Go types and dynamic values *)
(* ===================================================================== *)

(** *** reflect.Kind *)
Module reflect.

Inductive Kind : Set :=
| Invalid | Bool
| Int | Int8 | Int16 | Int32 | Int64
| Uint | Uint8 | Uint16 | Uint32 | Uint64 | Uintptr
| Float32 | Float64 | Complex64 | Complex128
| Array | Chan | Func | Interface | Map | Pointer | Slice
| String | Struct | UnsafePointer.

Definition Kind_eq_dec (a b : Kind) : {a = b} + {a <> b}.
Proof. decide equality. Defined.

(** The method [String] of a Kind, as it appears in panic messages. *)
Definition Kind_String (k : Kind) : string :=
  match k with
  | Invalid => "invalid" | Bool => "bool"
  | Int => "int" | Int8 => "int8" | Int16 => "int16" | Int32 => "int32"
  | Int64 => "int64"
  | Uint => "uint" | Uint8 => "uint8" | Uint16 => "uint16"
  | Uint32 => "uint32" | Uint64 => "uint64" | Uintptr => "uintptr"
  | Float32 => "float32" | Float64 => "float64"
  | Complex64 => "complex64" | Complex128 => "complex128"
  | Array => "array" | Chan => "chan" | Func => "func"
  | Interface => "interface" | Map => "map" | Pointer => "ptr"
  | Slice => "slice" | String => "string" | Struct => "struct"
  | UnsafePointer => "unsafe.Pointer"
  end.

End reflect.

(** The integer types of Go. *)
Inductive IntKind : Set :=
| KInt | KInt8 | KInt16 | KInt32 | KInt64
| KUint | KUint8 | KUint16 | KUint32 | KUint64 | KUintptr.

Inductive FloatKind : Set := KFloat32 | KFloat64.

(** Go types, as far as the encoder tells them apart.  [TDefined name u] is a
    defined type [type name u]; a struct type is known by its name, with
    [time.Time] set apart. *)
Inductive GoType : Set :=
| TBool
| TInt (k : IntKind)
| TFloat (k : FloatKind)
| TComplex64
| TComplex128
| TString
| TUnsafePointer
| TInterface
| TTime
| TStruct (name : string)
| TDefined (name : string) (under : GoType)
| TMap (key elem : GoType)
| TSlice (elem : GoType)
| TArray (len : N) (elem : GoType)
| TPtr (elem : GoType)
| TChan (elem : GoType)
| TFunc (signature : string).

Definition IntKind_eq_dec (a b : IntKind) : {a = b} + {a <> b}.
Proof. decide equality. Defined.

Definition FloatKind_eq_dec (a b : FloatKind) : {a = b} + {a <> b}.
Proof. decide equality. Defined.

Definition GoType_eq_dec (a b : GoType) : {a = b} + {a <> b}.
Proof.
  decide equality;
    auto using IntKind_eq_dec, FloatKind_eq_dec, string_dec, N.eq_dec.
Defined.

Definition kind_of_int (k : IntKind) : reflect.Kind :=
  match k with
  | KInt => reflect.Int | KInt8 => reflect.Int8 | KInt16 => reflect.Int16
  | KInt32 => reflect.Int32 | KInt64 => reflect.Int64
  | KUint => reflect.Uint | KUint8 => reflect.Uint8 | KUint16 => reflect.Uint16
  | KUint32 => reflect.Uint32 | KUint64 => reflect.Uint64
  | KUintptr => reflect.Uintptr
  end.

Definition kind_of_float (k : FloatKind) : reflect.Kind :=
  match k with KFloat32 => reflect.Float32 | KFloat64 => reflect.Float64 end.

(** The method [Kind] of a reflect.Type: the kind of the underlying type. *)
Fixpoint Kind (t : GoType) : reflect.Kind :=
  match t with
  | TBool => reflect.Bool
  | TInt k => kind_of_int k
  | TFloat k => kind_of_float k
  | TComplex64 => reflect.Complex64
  | TComplex128 => reflect.Complex128
  | TString => reflect.String
  | TUnsafePointer => reflect.UnsafePointer
  | TInterface => reflect.Interface
  | TTime => reflect.Struct
  | TStruct _ => reflect.Struct
  | TDefined _ u => Kind u
  | TMap _ _ => reflect.Map
  | TSlice _ => reflect.Slice
  | TArray _ _ => reflect.Array
  | TPtr _ => reflect.Pointer
  | TChan _ => reflect.Chan
  | TFunc _ => reflect.Func
  end.

Definition decimal (n : N) : string :=
  DecimalString.NilZero.string_of_uint (N.to_uint n).

(** The method [String] of a reflect.Type, which the verb [%T] prints. *)
Fixpoint type_string (t : GoType) : string :=
  match t with
  | TBool => "bool"
  | TInt k => reflect.Kind_String (kind_of_int k)
  | TFloat k => reflect.Kind_String (kind_of_float k)
  | TComplex64 => "complex64"
  | TComplex128 => "complex128"
  | TString => "string"
  | TUnsafePointer => "unsafe.Pointer"
  | TInterface => "interface {}"
  | TTime => "time.Time"
  | TStruct name => name
  | TDefined name _ => name
  | TMap k e => "map[" ++ type_string k ++ "]" ++ type_string e
  | TSlice e => "[]" ++ type_string e
  | TArray n e => "[" ++ decimal n ++ "]" ++ type_string e
  | TPtr e => "*" ++ type_string e
  | TChan e => "chan " ++ type_string e
  | TFunc sig => sig
  end.

(** The types of the values the encoder has no case for. *)
Inductive OtherType : Set :=
| OComplex64
| OComplex128
| OUnsafePointer
| OArray (len : N) (elem : GoType)
| OPtr (elem : GoType)
| OChan (elem : GoType)
| OFunc (signature : string).

Definition other_type (o : OtherType) : GoType :=
  match o with
  | OComplex64 => TComplex64
  | OComplex128 => TComplex128
  | OUnsafePointer => TUnsafePointer
  | OArray n e => TArray n e
  | OPtr e => TPtr e
  | OChan e => TChan e
  | OFunc sig => TFunc sig
  end.

(** A value of type [interface{}].

    [DNil] is the nil interface.  In the other constructors [d] tells whether
    the dynamic type is the type literal itself ([None]) or a defined type of
    that name over it ([Some name]).  The elements of a slice and the keys and
    elements of a map are given the way reflection hands them out, as
    interface values; a map lists its entries in the order in which this run
    iterates over it.  A struct other than [time.Time] carries what
    [mapstructure.Decode] makes of it: an error, or a map from field names to
    field values. *)
Inductive Dyn : Type :=
| DNil
| DBool (d : option string) (b : bool)
| DInt (d : option string) (k : IntKind) (n : Z)
| DFloat (d : option string) (k : FloatKind) (f : float64)
| DString (d : option string) (s : string)
| DTime (t : Time)
| DStruct (name : string) (flat : string + list (string * Dyn))
| DMap (d : option string) (K V : GoType) (entries : list (Dyn * Dyn))
| DSlice (d : option string) (E : GoType) (elems : list Dyn)
| DOther (d : option string) (o : OtherType).

Definition defined (d : option string) (u : GoType) : GoType :=
  match d with
  | None => u
  | Some name => TDefined name u
  end.

(** [reflect.TypeOf] on a value that is not the nil interface. *)
Definition TypeOf (v : Dyn) : GoType :=
  match v with
  | DNil => TInterface
  | DBool d _ => defined d TBool
  | DInt d k _ => defined d (TInt k)
  | DFloat d k _ => defined d (TFloat k)
  | DString d _ => defined d TString
  | DTime _ => TTime
  | DStruct name _ => TStruct name
  | DMap d K V _ => defined d (TMap K V)
  | DSlice d E _ => defined d (TSlice E)
  | DOther d o => defined d (other_type o)
  end.

(* ===================================================================== *)
(** ** Outcomes of a call *)
(* ===================================================================== *)

(** The errors the encoder returns, by the call that builds them. *)
Inductive Error : Type :=
| ErrInvalidUTF8 (s : string)
    (* protoimpl.X.NewError("invalid UTF-8 in string: %q", s) *)
| ErrInvalidType (T : string)
    (* protoimpl.X.NewError("invalid type: %T", v) *)
| ErrDecodingStruct (cause : string)
    (* fmt.Errorf("error decoding struct: %w", err) *)
| ErrConvertStruct (inner : Error).
    (* protoimpl.X.NewError("could not convert value to struct: %s", err) *)

(** The run-time panics of the calls the conversion makes. *)
Inductive PanicValue : Type :=
| TypeAssertionError (dynamic asserted : string)
    (* interface conversion: interface {} is <dynamic>, not <asserted> *)
| ValueError (method : string) (k : reflect.Kind)
    (* reflect: call of <method> on <k> Value *)
| NilDereference
    (* invalid memory address or nil pointer dereference *)
| IndexOutOfRange.
    (* index out of range *)

Inductive Result (A : Type) : Type :=
| Ok (a : A)
| Err (e : Error)
| Panic (p : PanicValue).

Arguments Ok {A} a.
Arguments Err {A} e.
Arguments Panic {A} p.

Definition bind {A B : Type} (r : Result A) (k : A -> Result B) : Result B :=
  match r with
  | Ok a => k a
  | Err e => Err e
  | Panic p => Panic p
  end.

Notation "x <- r ;; k" := (bind r (fun x => k))
  (at level 61, r at next level, right associativity).

(** The innermost error of a chain of wrapped errors. *)
Fixpoint root_cause (e : Error) : Error :=
  match e with
  | ErrConvertStruct inner => root_cause inner
  | _ => e
  end.

(* ===================================================================== *)
(** ** The messages: Value, Struct, ListValue *)
(* ===================================================================== *)

(** Go maps with string keys, as association lists in iteration order;
    [map_set m k a] is the assignment [m[k] = a].  A map that the code has
    filled is iterated in the order in which its keys were first assigned. *)
Fixpoint map_set {A : Type} (m : list (string * A)) (k : string) (a : A)
  : list (string * A) :=
  match m with
  | [] => [(k, a)]
  | (k', a') :: m' =>
    if String.eqb k' k then (k, a) :: m' else (k', a') :: map_set m' k a
  end.

(** The assignment [s[i] = a] to a slice: a run-time panic when the index is
    out of range. *)
Fixpoint slice_set {A : Type} (s : list A) (i : nat) (a : A) : option (list A) :=
  match s, i with
  | [], _ => None
  | _ :: s', O => Some (a :: s')
  | b :: s', S i' =>
    match slice_set s' i' a with
    | Some r => Some (b :: r)
    | None => None
    end
  end.

Inductive NullValue : Set := NullValue_NULL_VALUE.

(** Modelled from the spec: the messages Struct and ListValue of package
    [messages], whose generated Go code is not among the sources.  A Struct
    has the field [Data], a map from keys to Value pointers; a ListValue has
    the field [Values], a slice of Value pointers.  Both are given over the
    type of the Values they hold. *)
Record StructOf (V : Type) : Type := mkStruct { Data : list (string * option V) }.
Record ListValueOf (V : Type) : Type := mkListValue { Values : list (option V) }.

Scheme All for StructOf.
Scheme All for ListValueOf.

(** Modelled from the spec: the message Value of package [messages].  The
    spec gives the seven variants; the constructors and accessors used by
    [struct.go] give the shape: a Value has the single field [Kind], an
    interface over pointers to one wrapper struct per variant, and the
    wrappers of the Timestamp, Struct and List variants hold a pointer to the
    inner message.

    A [Value] here is the content of the field [Kind]: [Kind_nil] is the
    unset interface, and in [Value_X w] the wrapper pointer [w] is [None] when
    it is a nil pointer of type [*Value_X].  A pointer [*Value] is an
    [option Value]. *)
Inductive Value : Type :=
| Kind_nil
| Value_NullValue (w : option NullValue)
| Value_NumberValue (w : option float64)
| Value_StringValue (w : option string)
| Value_TimestampValue (w : option (option Timestamp))
| Value_BoolValue (w : option bool)
| Value_StructValue (w : option (option (StructOf Value)))
| Value_ListValue (w : option (option (ListValueOf Value))).

Definition Struct : Type := StructOf Value.
Definition ListValue : Type := ListValueOf Value.

(** Modelled from the spec: the generated getters of package [messages];
    like all generated getters they accept a nil receiver. *)
Definition GetKind (x : option Value) : Value :=
  match x with
  | Some v => v
  | None => Kind_nil
  end.

Definition GetData (x : option Struct) : list (string * option Value) :=
  match x with
  | Some s => Data s
  | None => []
  end.

Definition GetValues (x : option ListValue) : list (option Value) :=
  match x with
  | Some l => Values l
  | None => []
  end.

(* ===================================================================== *)
(** ** The variant constructors *)
(* ===================================================================== *)

Definition NewNullValue : Value := Value_NullValue (Some NullValue_NULL_VALUE).
Definition NewBoolValue (v : bool) : Value := Value_BoolValue (Some v).
Definition NewNumberValue (v : float64) : Value := Value_NumberValue (Some v).
Definition NewStringValue (v : string) : Value := Value_StringValue (Some v).
Definition NewTimestampValue (v : Time) : Value :=
  Value_TimestampValue (Some (timestamppb.New v)).
Definition NewStructValue (v : option Struct) : Value := Value_StructValue (Some v).
Definition NewListValue (v : option ListValue) : Value := Value_ListValue (Some v).

(* ===================================================================== *)
(** ** Decoding: AsInterface, AsMap, AsSlice *)
(* ===================================================================== *)

(** The Go types of the containers the decoder builds. *)
Definition map_string_interface : GoType := TMap TString TInterface.
Definition slice_interface : GoType := TSlice TInterface.

(** A [map[string]interface{}] as a dynamic value. *)
Definition DMapOf (m : list (string * Dyn)) : Dyn :=
  DMap None TString TInterface
       (List.map (fun kv => match kv with (k, v) => (DString None k, v) end) m).

(** A [[]interface{}] as a dynamic value. *)
Definition DSliceOf (vs : list Dyn) : Dyn := DSlice None TInterface vs.

Definition nonnil {A : Type} (p : option A) : bool :=
  match p with
  | Some _ => true
  | None => false
  end.

Section Decoder.

(** [AsInterface] on the values below the one at hand. *)
Variable AsInterface_rec : Value -> Result Dyn.

(** The call [AsInterface(v)] on a pointer: [GetKind] of a nil pointer is
    the unset interface, which no case of the type switch takes. *)
Definition AsInterface_ptr (x : option Value) : Result Dyn :=
  match x with
  | Some v => AsInterface_rec v
  | None => Ok DNil
  end.

(** The loop of [AsMap]: [vs[k] = AsInterface(v)] for every entry. *)
Fixpoint AsMap_loop (data : list (string * option Value))
         (vs : list (string * Dyn)) : Result (list (string * Dyn)) :=
  match data with
  | [] => Ok vs
  | (k, v) :: rest =>
    d <- AsInterface_ptr v ;;
    AsMap_loop rest (map_set vs k d)
  end.

(** [x.GetData()] is the nil map when [x] is nil: the loop has nothing to
    do. *)
Definition AsMap_with (x : option Struct) : Result (list (string * Dyn)) :=
  match x with
  | Some s => AsMap_loop (Data s) []
  | None => Ok []
  end.

(** The loop of [AsSlice]: [vs[i] = AsInterface(v)] for every index. *)
Fixpoint AsSlice_loop (values : list (option Value)) (i : nat)
         (vs : list Dyn) : Result (list Dyn) :=
  match values with
  | [] => Ok vs
  | v :: rest =>
    d <- AsInterface_ptr v ;;
    match slice_set vs i d with
    | Some vs' => AsSlice_loop rest (S i) vs'
    | None => Panic IndexOutOfRange
    end
  end.

(** [x.GetValues()] is the nil slice when [x] is nil: [vs] is made with
    length 0 and the loop has nothing to do. *)
Definition AsSlice_with (x : option ListValue) : Result (list Dyn) :=
  match x with
  | Some l => AsSlice_loop (Values l) 0 (repeat DNil (List.length (Values l)))
  | None => Ok []
  end.

End Decoder.

(** [AsInterface] on the content of the field [Kind].  A field of a wrapper
    is read only under the test [v != nil]. *)
Fixpoint AsInterface_kind (kind : Value) : Result Dyn :=
  match kind with
  | Value_NumberValue v =>
    if nonnil v then
      match v with
      | Some NumberValue =>
        if math.IsNaN NumberValue then Ok (DString None "NaN")
        else if math.IsInf NumberValue 1 then Ok (DString None "Infinity")
        else if math.IsInf NumberValue (-1) then Ok (DString None "-Infinity")
        else Ok (DFloat None KFloat64 NumberValue)
      | None => Panic NilDereference
      end
    else Ok DNil
  | Value_StringValue v =>
    if nonnil v then
      match v with
      | Some StringValue => Ok (DString None StringValue)
      | None => Panic NilDereference
      end
    else Ok DNil
  | Value_TimestampValue v =>
    if nonnil v then
      match v with
      | Some TimestampValue => Ok (DTime (timestamppb.AsTime TimestampValue))
      | None => Panic NilDereference
      end
    else Ok DNil
  | Value_BoolValue v =>
    if nonnil v then
      match v with
      | Some BoolValue => Ok (DBool None BoolValue)
      | None => Panic NilDereference
      end
    else Ok DNil
  | Value_StructValue v =>
    if nonnil v then
      match v with
      | Some StructValue =>
        m <- AsMap_with AsInterface_kind StructValue ;; Ok (DMapOf m)
      | None => Panic NilDereference
      end
    else Ok DNil
  | Value_ListValue v =>
    if nonnil v then
      match v with
      | Some ListValue =>
        vs <- AsSlice_with AsInterface_kind ListValue ;; Ok (DSliceOf vs)
      | None => Panic NilDereference
      end
    else Ok DNil
  | Value_NullValue _ => Ok DNil
  | Kind_nil => Ok DNil
  end.

(** [AsInterface] converts x to a general-purpose Go interface. *)
Definition AsInterface (x : option Value) : Result Dyn :=
  AsInterface_kind (GetKind x).

(** [AsMap] converts x to a general-purpose Go map. *)
Definition AsMap (x : option Struct) : Result (list (string * Dyn)) :=
  AsMap_with AsInterface_kind x.

(** [AsSlice] converts x to a general-purpose Go slice. *)
Definition AsSlice (x : option ListValue) : Result (list Dyn) :=
  AsSlice_with AsInterface_kind x.

(* ===================================================================== *)
(** ** Encoding: NewValue, NewStruct, NewList *)
(* ===================================================================== *)

(** The type assertion [v.(T)] in its one-result form: it yields the data of
    [v] when the dynamic type of [v] is [T] and panics otherwise. *)
Definition type_assert {A : Type} (v : Dyn) (T : GoType) (data : A) : Result A :=
  if GoType_eq_dec (TypeOf v) T then Ok data
  else Panic (TypeAssertionError (type_string (TypeOf v)) (type_string T)).

(** The test of the two-result form [_, ok := v.(T)]. *)
Definition type_is (v : Dyn) (T : GoType) : bool :=
  if GoType_eq_dec (TypeOf v) T then true else false.

(** The string held by a value of a string type. *)
Definition string_of (k : Dyn) : string :=
  match k with
  | DString _ s => s
  | _ => EmptyString
  end.

(** [reflect.Value.String] on a value of static type [T]: the string itself
    for a type of kind String, and the type between angle brackets for any
    other. *)
Definition Value_String (T : GoType) (k : Dyn) : string :=
  match Kind T with
  | reflect.String => string_of k
  | _ => "<" ++ type_string T ++ " Value>"
  end.

(** The bytes of a [[]byte]. *)
Definition bytes_of (elems : list Dyn) : list Z :=
  List.map (fun e => match e with DInt _ _ n => n | _ => 0 end) elems.

(** A [[]byte] as a dynamic value. *)
Definition DBytes (b : list Z) : Dyn :=
  DSlice None (TInt KUint8) (List.map (fun n => DInt None KUint8 n) b).

Section EncoderLoops.

(** The loops are written over the entries of a container and the call
    that encodes one entry. *)
Variable A : Type.
Variable encode : A -> Result Value.

(** The loop of [NewStruct]. *)
Fixpoint NewStruct_loop (v : list (string * A))
         (data : list (string * option Value)) : Result Struct :=
  match v with
  | [] => Ok (mkStruct data)
  | (k, v') :: rest =>
    if negb (utf8.ValidString k) then Err (ErrInvalidUTF8 k)
    else
      val <- encode v' ;;
      NewStruct_loop rest (map_set data k (Some val))
  end.

(** The loop of [NewList]. *)
Fixpoint NewList_loop (v : list A) (i : nat)
         (values : list (option Value)) : Result ListValue :=
  match v with
  | [] => Ok (mkListValue values)
  | e :: rest =>
    val <- encode e ;;
    match slice_set values i (Some val) with
    | Some values' => NewList_loop rest (S i) values'
    | None => Panic IndexOutOfRange
    end
  end.

(** The loop of the Slice case of [NewValue].  The arguments of
    [fmt.Errorf] are evaluated before the call, and the first of them,
    [refVal.Field(i)], panics on a Value whose kind is not Struct. *)
Fixpoint unpack_loop (elems : list A) (i : nat)
         (values : list (option Value)) : Result ListValue :=
  match elems with
  | [] => Ok (mkListValue values)
  | e :: rest =>
    match encode e with
    | Ok val =>
      match slice_set values i (Some val) with
      | Some values' => unpack_loop rest (S i) values'
      | None => Panic IndexOutOfRange
      end
    | Err _ => Panic (ValueError "reflect.Value.Field" reflect.Slice)
    | Panic p => Panic p
    end
  end.

(** The loop over [MapRange] in the Map case of [NewValue]:
    [reflected[k] = mv] with the key turned into a string. *)
Definition MapRange_loop (K : GoType) (entries : list (Dyn * A))
  : list (string * A) :=
  fold_left
    (fun reflected e =>
       match e with (k, mv) => map_set reflected (Value_String K k) mv end)
    entries [].

(** The map itself, when it is a [map[string]interface{}]. *)
Definition as_string_map (entries : list (Dyn * A)) : list (string * A) :=
  List.map (fun e => match e with (k, mv) => (string_of k, mv) end) entries.

End EncoderLoops.

(** The end of the Map case of [NewValue]. *)
Definition convert_struct (r : Result Struct) : Result Value :=
  match r with
  | Ok structVal => Ok (NewStructValue (Some structVal))
  | Err err => Err (ErrConvertStruct err)
  | Panic p => Panic p
  end.

(** The values of the entries, each with its encoding. *)
Definition encode_entries {K : Type} (encode : Dyn -> Result Value)
           (entries : list (K * Dyn)) : list (K * Result Value) :=
  List.map (fun e => match e with (k, mv) => (k, encode mv) end) entries.

(** [NewValue] constructs a Value from a general-purpose Go interface.

    The encodings of the entries of a map are laid out next to their keys
    before the loops run; a loop reads the encoding of an entry where the
    source calls [NewValue] on it. *)
Fixpoint NewValue (v : Dyn) : Result Value :=
  match v with
  | DNil => Ok NewNullValue
  | _ =>
    match Kind (TypeOf v), v with
    | reflect.Bool, DBool _ b =>
      b' <- type_assert v TBool b ;; Ok (NewBoolValue b')
    | reflect.Int, DInt _ _ n =>
      n' <- type_assert v (TInt KInt) n ;; Ok (NewNumberValue (float64_of_int n'))
    | reflect.Int32, DInt _ _ n =>
      n' <- type_assert v (TInt KInt32) n ;; Ok (NewNumberValue (float64_of_int n'))
    | reflect.Int64, DInt _ _ n =>
      n' <- type_assert v (TInt KInt64) n ;; Ok (NewNumberValue (float64_of_int n'))
    | reflect.Uint, DInt _ _ n =>
      n' <- type_assert v (TInt KUint) n ;; Ok (NewNumberValue (float64_of_int n'))
    | reflect.Uint32, DInt _ _ n =>
      n' <- type_assert v (TInt KUint32) n ;; Ok (NewNumberValue (float64_of_int n'))
    | reflect.Uint64, DInt _ _ n =>
      n' <- type_assert v (TInt KUint64) n ;; Ok (NewNumberValue (float64_of_int n'))
    | reflect.Float32, DFloat _ _ f =>
      f' <- type_assert v (TFloat KFloat32) f ;; Ok (NewNumberValue f')
    | reflect.Float64, DFloat _ _ f =>
      f' <- type_assert v (TFloat KFloat64) f ;; Ok (NewNumberValue f')
    | reflect.String, DString _ s =>
      refStr <- type_assert v TString s ;;
      if negb (utf8.ValidString refStr) then Err (ErrInvalidUTF8 refStr)
      else Ok (NewStringValue refStr)
    | reflect.Struct, DTime tVal =>
      Ok (NewTimestampValue tVal)
    | reflect.Struct, DStruct _ flat =>
      match flat with
      | inl cause => Err (ErrDecodingStruct cause)
      | inr interMap =>
        (* NewValue(interMap), whose type is map[string]interface{} *)
        convert_struct
          (NewStruct_loop (fun r => r) (encode_entries NewValue interMap) [])
      end
    | reflect.Map, DMap _ K _ entries =>
      let reflected :=
        if type_is v map_string_interface
        then as_string_map (encode_entries NewValue entries)
        else MapRange_loop K (encode_entries NewValue entries) in
      convert_struct (NewStruct_loop (fun r => r) reflected [])
    | reflect.Slice, DSlice _ _ elems =>
      if type_is v (TSlice (TInt KUint8))
      then Ok (NewStringValue (base64.EncodeToString (bytes_of elems)))
      else
        listVal <- unpack_loop NewValue elems 0
                               (repeat None (List.length elems)) ;;
        Ok (NewListValue (Some listVal))
    | _, _ => Err (ErrInvalidType (type_string (TypeOf v)))
    end
  end.

(** [NewStruct] constructs a Struct from a general-purpose Go map. *)
Definition NewStruct (v : list (string * Dyn)) : Result Struct :=
  NewStruct_loop NewValue v [].

(** [NewList] constructs a ListValue from a general-purpose Go slice. *)
Definition NewList (v : list Dyn) : Result ListValue :=
  NewList_loop NewValue v 0 (repeat None (List.length v)).


(* ===================================================================== *)
(** ** Vocabulary of the properties *)
(* ===================================================================== *)

(** A string that is not valid UTF-8: the single byte 0xFF. *)
Definition bad_utf8 : string := String "255"%char EmptyString.

(** The values built from null, bool, float64 and valid UTF-8 strings. *)
Definition scalar (v : Dyn) : bool :=
  match v with
  | DNil => true
  | DBool None _ => true
  | DFloat None KFloat64 _ => true
  | DString None s => utf8.ValidString s
  | _ => false
  end.

(** The kinds whose case in [NewValue] asserts the predeclared type. *)
Definition asserted_kinds : list reflect.Kind :=
  [reflect.Bool; reflect.Int; reflect.Int32; reflect.Int64;
   reflect.Uint; reflect.Uint32; reflect.Uint64;
   reflect.Float32; reflect.Float64; reflect.String].

(** The kinds [NewValue] has a case for. *)
Definition recognized_kinds : list reflect.Kind :=
  asserted_kinds ++ [reflect.Struct; reflect.Map; reflect.Slice].

(** A function applied to the values of the entries of a map. *)
Definition map_values {K A B : Type} (f : A -> B) (m : list (K * A)) : list (K * B) :=
  List.map (fun e => match e with (k, a) => (k, f a) end) m.

(** The slices that are not a [[]byte]. *)
Definition not_bytes (v : Dyn) : Prop := type_is v (TSlice (TInt KUint8)) = false.

(** The map that [NewValue] hands to [NewStruct]: in the Map case the map
    itself when it is a [map[string]interface{}], and else the map that the
    loop over [MapRange] has filled; in the Struct case, for a struct other
    than [time.Time], the map that [mapstructure.Decode] has filled. *)
Definition handed_to_NewStruct (v : Dyn) : option (list (string * Dyn)) :=
  match v with
  | DMap d K V entries =>
    Some (if type_is (DMap d K V entries) map_string_interface
          then as_string_map entries
          else MapRange_loop K entries)
  | DStruct _ (inr interMap) => Some interMap
  | _ => None
  end.

(** The entries have valid keys and values that [NewValue] encodes. *)
Definition entries_encode (m : list (string * Dyn)) : Prop :=
  Forall (fun e => utf8.ValidString (fst e) = true /\
                   exists x, NewValue (snd e) = Ok x) m.

(** An error wrapped [n] times by the Map case of [NewValue]. *)
Fixpoint wrapped (n : nat) (e : Error) : Error :=
  match n with
  | O => e
  | S n' => ErrConvertStruct (wrapped n' e)
  end.

(** A map with a key that is not valid UTF-8 lies inside the value: the
    value is, or holds below any number of maps, structs and slices other
    than [[]byte], a map or struct whose map handed to [NewStruct] has such a
    key. *)
Inductive bad_key_inside : Dyn -> Prop :=
| bad_key_here (v : Dyn) (m : list (string * Dyn)) (k : string) (x : Dyn) :
    handed_to_NewStruct v = Some m ->
    In (k, x) m -> utf8.ValidString k = false -> bad_key_inside v
| bad_key_in_map (v : Dyn) (m : list (string * Dyn)) (k : string) (x : Dyn) :
    handed_to_NewStruct v = Some m ->
    In (k, x) m -> bad_key_inside x -> bad_key_inside v
| bad_key_in_slice (d : option string) (E : GoType) (elems : list Dyn) (x : Dyn) :
    not_bytes (DSlice d E elems) ->
    In x elems -> bad_key_inside x -> bad_key_inside (DSlice d E elems).

(** The key [k], not valid UTF-8, is the first failure of the encoding, [n]
    levels of maps and structs down: at every level the entries iterated
    before the one that leads to [k] have valid keys and values that
    encode. *)
Inductive bad_key_first : Dyn -> string -> nat -> Prop :=
| bad_key_first_here (v : Dyn) (pre : list (string * Dyn)) (k : string)
                     (x : Dyn) (post : list (string * Dyn)) :
    handed_to_NewStruct v = Some (pre ++ (k, x) :: post)%list ->
    entries_encode pre ->
    utf8.ValidString k = false ->
    bad_key_first v k 1
| bad_key_first_below (v : Dyn) (pre : list (string * Dyn)) (k0 : string)
                      (x : Dyn) (post : list (string * Dyn))
                      (k : string) (n : nat) :
    handed_to_NewStruct v = Some (pre ++ (k0, x) :: post)%list ->
    entries_encode pre ->
    utf8.ValidString k0 = true ->
    bad_key_first x k n ->
    bad_key_first v k (S n).

(** Every string in the Value, and every key of a Struct in it, is valid
    UTF-8. *)
Fixpoint valid_text (x : Value) : bool :=
  match x with
  | Value_StringValue (Some s) => utf8.ValidString s
  | Value_StructValue (Some (Some s)) =>
    forallb (fun kv =>
               match kv with
               | (k, Some v) => utf8.ValidString k && valid_text v
               | (k, None) => utf8.ValidString k
               end) (Data s)
  | Value_ListValue (Some (Some l)) =>
    forallb (fun pv => match pv with Some v => valid_text v | None => true end)
            (Values l)
  | _ => true
  end.

(** The dynamic values of the shapes of JSON: nil, bool, float64, string,
    [time.Time], [map[string]interface{}] and [[]interface{}], the last two
    over values of these shapes. *)
Fixpoint json_like (d : Dyn) : bool :=
  match d with
  | DNil => true
  | DBool None _ => true
  | DFloat None KFloat64 _ => true
  | DString None _ => true
  | DTime _ => true
  | DMap None TString TInterface entries =>
    forallb (fun e =>
               match e with
               | (DString None _, v) => json_like v
               | _ => false
               end) entries
  | DSlice None TInterface elems => forallb json_like elems
  | _ => false
  end.

(** The keys of a map. *)
Definition keys {A : Type} (m : list (string * A)) : list string :=
  List.map fst m.

(** The panics of the calls [NewValue] makes: a failed type assertion, and
    [reflect.Value.Field] on a slice. *)
Definition encoder_panic (p : PanicValue) : Prop :=
  (exists dynamic asserted : string, p = TypeAssertionError dynamic asserted) \/
  p = ValueError "reflect.Value.Field" reflect.Slice.

(** An error that is, or wraps, an invalid-encoding error carries a string
    that is not valid UTF-8. *)
Definition sound_error (e : Error) : Prop :=
  forall s, root_cause e = ErrInvalidUTF8 s -> utf8.ValidString s = false.


(* ===================================================================== *)
(** ** Properties *)
(* ===================================================================== *)

Local Open Scope list_scope.

(** *** The library functions on the examples of the documentation *)

Example ValidString_ascii : utf8.ValidString "hello" = true.
Proof. reflexivity. Qed.

Example ValidString_0xff : utf8.ValidString (String "255"%char EmptyString) = false.
Proof. reflexivity. Qed.

Example EncodeToString_hi : base64.EncodeToString [0x68; 0x69] = "aGk=".
Proof. reflexivity. Qed.

Example float64_of_int_1 :
  float64_of_int 1 = S754_finite false 4503599627370496 (-52).
Proof. reflexivity. Qed.

(** *** The examples of the specification *)

Example encode_map_example :
  NewValue (DMapOf [("a", DInt None KInt 1);
                    ("b", DSliceOf [DBool None true; DNil])])
  = Ok (NewStructValue (Some (mkStruct
          [("a", Some (NewNumberValue (float64_of_int 1)));
           ("b", Some (NewListValue (Some (mkListValue
                   [Some (NewBoolValue true); Some NewNullValue]))))]))).
Proof. reflexivity. Qed.

Example decode_map_example :
  AsInterface (Some (NewStructValue (Some (mkStruct
          [("a", Some (NewNumberValue (float64_of_int 1)));
           ("b", Some (NewListValue (Some (mkListValue
                   [Some (NewBoolValue true); Some NewNullValue]))))]))))
  = Ok (DMapOf [("a", DFloat None KFloat64 (float64_of_int 1));
                ("b", DSliceOf [DBool None true; DNil])]).
Proof. reflexivity. Qed.

Example encode_NaN_example :
  NewValue (DFloat None KFloat64 S754_nan) = Ok (NewNumberValue S754_nan) /\
  AsInterface (Some (NewNumberValue S754_nan)) = Ok (DString None "NaN").
Proof. split; reflexivity. Qed.

Example encode_bytes_example :
  NewValue (DBytes [0x68; 0x69]) = Ok (NewStringValue "aGk=") /\
  AsInterface (Some (NewStringValue "aGk=")) = Ok (DString None "aGk=").
Proof. split; reflexivity. Qed.

(** *** Byte slices *)

Lemma bytes_of_DBytes (b : list Z) :
  bytes_of (List.map (fun n => DInt None KUint8 n) b) = b.
Proof.
  induction b as [|n b IH]; simpl; [reflexivity|].
  now rewrite IH.
Qed.

Lemma NewValue_DBytes (b : list Z) :
  NewValue (DBytes b) = Ok (NewStringValue (base64.EncodeToString b)).
Proof.
  unfold DBytes. simpl. unfold type_is. simpl.
  now rewrite bytes_of_DBytes.
Qed.

(** C6: for every byte sequence [b], [NewValue] succeeds with a String
    variant holding the standard base64 encoding of [b], and [AsInterface]
    of that Value returns the base64 text as it is. *)
Theorem bytes_encode_base64 (b : list Z) :
  exists x : Value,
    NewValue (DBytes b) = Ok x /\
    x = Value_StringValue (Some (base64.EncodeToString b)) /\
    AsInterface (Some x) = Ok (DString None (base64.EncodeToString b)).
Proof.
  exists (NewStringValue (base64.EncodeToString b)).
  split; [apply NewValue_DBytes|].
  split; reflexivity.
Qed.

(** *** Numbers *)

(** C7: decoding a Number variant returns the float64 it holds when that is
    finite; a NaN decodes to the string NaN, positive infinity to the string
    Infinity and negative infinity to the string -Infinity. *)
Theorem AsInterface_NumberValue (f : float64) :
  AsInterface (Some (NewNumberValue f)) =
  Ok (match f with
      | S754_nan => DString None "NaN"
      | S754_infinity false => DString None "Infinity"
      | S754_infinity true => DString None "-Infinity"
      | S754_zero _ | S754_finite _ _ _ => DFloat None KFloat64 f
      end).
Proof.
  destruct f as [s|[|]| |s m e]; reflexivity.
Qed.

(** *** Assignments to slices and maps *)

Lemma slice_set_app {A : Type} (done todo : list A) (x a : A) :
  slice_set (done ++ x :: todo) (List.length done) a = Some (done ++ a :: todo).
Proof.
  induction done as [|b done IH]; simpl; [reflexivity|].
  now rewrite IH.
Qed.

Lemma snoc_app {A : Type} (done : list A) (a : A) (todo : list A) :
  done ++ a :: todo = (done ++ [a]) ++ todo.
Proof. now rewrite <- app_assoc. Qed.

Lemma length_snoc {A : Type} (done : list A) (a : A) :
  List.length (done ++ [a]) = S (List.length done).
Proof. rewrite length_app; simpl; lia. Qed.

(** *** The loops over a slice *)

Section LoopFacts.

Variable A : Type.
Variable encode : A -> Result Value.


Lemma unpack_loop_ok (v : list A) :
  forall (xs done : list (option Value)),
    Forall2 (fun e x => exists val, encode e = Ok val /\ x = Some val) v xs ->
    unpack_loop encode v (List.length done) (done ++ repeat None (List.length v))
    = Ok (mkListValue (done ++ xs)).
Proof.
  induction v as [|e v IH]; intros xs done H; inversion H; subst; simpl.
  - reflexivity.
  - destruct H2 as (val & -> & ->).
    rewrite slice_set_app.
    rewrite (snoc_app done (Some val) (repeat None (List.length v))).
    rewrite <- (length_snoc done (Some val)).
    rewrite IH with (xs := l'); [|assumption].
    now rewrite <- app_assoc.
Qed.


Lemma unpack_loop_start (v : list A) (xs : list (option Value)) :
  Forall2 (fun e x => exists val, encode e = Ok val /\ x = Some val) v xs ->
  unpack_loop encode v 0 (repeat None (List.length v)) = Ok (mkListValue xs).
Proof. intros H. exact (unpack_loop_ok [] H). Qed.

(** The first element that returns an error stops the loop of the Slice case
    in the panic of [reflect.Value.Field]. *)
Lemma unpack_loop_error (pre : list A) :
  forall (e : A) (post : list A) (err : Error) (done : list (option Value)),
    Forall (fun a => exists val, encode a = Ok val) pre ->
    encode e = Err err ->
    unpack_loop encode (pre ++ e :: post) (List.length done)
                (done ++ repeat None (List.length (pre ++ e :: post)))
    = Panic (ValueError "reflect.Value.Field" reflect.Slice).
Proof.
  induction pre as [|a pre IH]; intros e post err done Hpre He; simpl.
  - now rewrite He.
  - inversion Hpre as [|? ? (val & Ha) Hpre']; subst. rewrite Ha.
    rewrite slice_set_app.
    rewrite (snoc_app done (Some val)), <- (length_snoc done (Some val)).
    now apply IH with (err := err).
Qed.

(** An element that does not encode leaves the loop of the Slice case no way
    to return. *)
Lemma unpack_loop_failure (v : list A) :
  forall (i : nat) (values : list (option Value)),
    (exists e, In e v /\ forall val, encode e <> Ok val) ->
    exists p, unpack_loop encode v i values = Panic p.
Proof.
  induction v as [|a v IH]; intros i values (e & Hin & He); simpl.
  - destruct Hin.
  - destruct (encode a) as [val|err|p] eqn:Ha.
    + destruct (slice_set values i (Some val)); [|eauto].
      apply IH. destruct Hin as [->|Hin]; [|eauto].
      exfalso. now apply (He val).
    + eauto.
    + eauto.
Qed.

End LoopFacts.


(** *** Lists of results *)

Lemma Forall_exists_Forall2 {A B : Type} (R : A -> B -> Prop) (l : list A) :
  Forall (fun a => exists b, R a b) l -> exists l', Forall2 R l l'.
Proof.
  induction 1 as [|a l (b & Hb) _ (l' & Hl')].
  - exists []. constructor.
  - exists (b :: l'). now constructor.
Qed.


(** *** The decoder returns on every Value *)

Section DecoderFacts.

Variable rec : Value -> Result Dyn.

Lemma AsSlice_loop_ok (values : list (option Value)) :
  forall (ds done : list Dyn),
    Forall2 (fun v d => AsInterface_ptr rec v = Ok d) values ds ->
    AsSlice_loop rec values (List.length done)
                 (done ++ repeat DNil (List.length values))
    = Ok (done ++ ds).
Proof.
  induction values as [|v values IH]; intros ds done H; inversion H; subst; simpl.
  - reflexivity.
  - rewrite H2. simpl.
    rewrite slice_set_app.
    rewrite (snoc_app done y), <- (length_snoc done y).
    rewrite IH with (ds := l'); [|assumption].
    now rewrite <- app_assoc.
Qed.

Lemma AsSlice_loop_start (values : list (option Value)) (ds : list Dyn) :
  Forall2 (fun v d => AsInterface_ptr rec v = Ok d) values ds ->
  AsSlice_loop rec values 0 (repeat DNil (List.length values)) = Ok ds.
Proof. intros H. exact (AsSlice_loop_ok [] H). Qed.

Lemma AsMap_loop_total (data : list (string * option Value)) :
  Forall (fun kv => exists d, AsInterface_ptr rec (snd kv) = Ok d) data ->
  forall vs, exists m, AsMap_loop rec data vs = Ok m.
Proof.
  induction 1 as [|[k v] data (d & Hd) _ IH]; intros vs; simpl.
  - eauto.
  - simpl in Hd. rewrite Hd. simpl. apply IH.
Qed.

End DecoderFacts.

Lemma AsInterface_ptr_kind (x : option Value) :
  AsInterface_ptr AsInterface_kind x = AsInterface x.
Proof. now destruct x. Qed.

(** The Struct and List cases of [AsInterface] are the calls of [AsMap] and
    [AsSlice]. *)
Lemma AsInterface_StructValue (x : option Struct) :
  AsInterface (Some (NewStructValue x)) = (m <- AsMap x ;; Ok (DMapOf m)).
Proof. reflexivity. Qed.

Lemma AsInterface_ListValue (x : option ListValue) :
  AsInterface (Some (NewListValue x)) = (vs <- AsSlice x ;; Ok (DSliceOf vs)).
Proof. reflexivity. Qed.

(** [AsMap] and [AsSlice] range over what the getters return. *)
Lemma AsMap_GetData (x : option Struct) :
  AsMap x = AsMap_loop AsInterface_kind (GetData x) [].
Proof. now destruct x. Qed.

Lemma AsSlice_GetValues (x : option ListValue) :
  AsSlice x = AsSlice_loop AsInterface_kind (GetValues x) 0
                           (repeat DNil (List.length (GetValues x))).
Proof. now destruct x. Qed.

Lemma AsInterface_kind_total (v : Value) : exists d, AsInterface_kind v = Ok d.
Proof.
  induction v as [|w|w|w|w|w|w IH|w IH].
  - simpl; eauto.
  - simpl; eauto.
  - destruct w as [f|]; simpl; [|eauto].
    destruct (math.IsNaN f), (math.IsInf f 1), (math.IsInf f (-1)); eauto.
  - destruct w; simpl; eauto.
  - destruct w; simpl; eauto.
  - destruct w; simpl; eauto.
  - destruct w as [[[data]|]|]; simpl; eauto.
    inversion IH as [? IH1|]; subst. inversion IH1 as [? IH2|]; subst.
    inversion IH2 as [? IH3]; subst.
    destruct (@AsMap_loop_total AsInterface_kind data) with (vs := @nil (string * Dyn))
      as (m & Hm).
    + clear - IH3. induction IH3 as [|[k pv] Hkv data _ IH]; constructor; auto.
      inversion Hkv as [? _ ? Hpv]; subst. simpl.
      inversion Hpv as [? (d & Hd)|]; subst; simpl; eauto.
    + unfold AsMap_with. simpl. rewrite Hm. simpl. eauto.
  - destruct w as [[[values]|]|]; simpl; eauto.
    inversion IH as [? IH1|]; subst. inversion IH1 as [? IH2|]; subst.
    inversion IH2 as [? IH3]; subst.
    destruct (@Forall_exists_Forall2 _ _
                (fun v d => AsInterface_ptr AsInterface_kind v = Ok d) values)
      as (ds & Hds).
    + clear - IH3. induction IH3 as [|pv Hpv values _ IH]; constructor; auto.
      inversion Hpv as [? (d & Hd)|]; subst; simpl; eauto.
    + unfold AsSlice_with. simpl.
      rewrite (@AsSlice_loop_start AsInterface_kind values ds); [|assumption].
      simpl. eauto.
Qed.

Lemma AsInterface_total (x : option Value) : exists d, AsInterface x = Ok d.
Proof. unfold AsInterface. apply AsInterface_kind_total. Qed.


Lemma AsMap_total (x : option Struct) : exists m, AsMap x = Ok m.
Proof.
  destruct x as [[data]|]; unfold AsMap, AsMap_with; simpl; [|eauto].
  apply AsMap_loop_total. apply Forall_forall. intros [k v] _. simpl.
  rewrite AsInterface_ptr_kind. apply AsInterface_total.
Qed.


(** *** Decoding *)

(** The claim of C3 fails on a Struct variant whose wrapper holds a nil
    pointer: [AsMap] returns the map it has made, which is empty and is not
    the nil interface. *)
Lemma nil_Struct_pointer_decodes_to_map :
  AsInterface (Some (Value_StructValue (Some None))) <> Ok DNil.
Proof. discriminate. Qed.

(** C3, amended: [AsInterface] returns a value, without error or panic, on
    every Value.  It returns nil for a nil Value pointer, for an unset Kind,
    for the Null variant and for a variant whose wrapper pointer is nil.  A
    Struct variant holding a nil Struct pointer decodes to an empty map, a
    List variant holding a nil ListValue pointer to an empty slice, and a
    Timestamp variant holding a nil Timestamp pointer to the time of the Unix
    epoch in UTC. *)
Theorem AsInterface_total_and_nil_cases :
  (forall x : option Value, exists d, AsInterface x = Ok d) /\
  AsInterface None = Ok DNil /\
  AsInterface (Some Kind_nil) = Ok DNil /\
  (forall w, AsInterface (Some (Value_NullValue w)) = Ok DNil) /\
  AsInterface (Some (Value_NumberValue None)) = Ok DNil /\
  AsInterface (Some (Value_StringValue None)) = Ok DNil /\
  AsInterface (Some (Value_BoolValue None)) = Ok DNil /\
  AsInterface (Some (Value_TimestampValue None)) = Ok DNil /\
  AsInterface (Some (Value_StructValue None)) = Ok DNil /\
  AsInterface (Some (Value_ListValue None)) = Ok DNil /\
  AsInterface (Some (Value_StructValue (Some None))) = Ok (DMapOf []) /\
  AsInterface (Some (Value_ListValue (Some None))) = Ok (DSliceOf []) /\
  AsInterface (Some (Value_TimestampValue (Some None)))
  = Ok (DTime (mkTime 0 0 "UTC")).
Proof.
  split; [exact AsInterface_total|].
  repeat split; reflexivity.
Qed.

(** *** Scalars *)

(** C1: for a value built from null, bool, float64 and valid UTF-8 strings,
    decoding the encoding returns the value itself, except that a float64
    that is NaN or an infinity comes back as the string that stands for
    it. *)
Theorem roundtrip_scalar (v : Dyn) :
  scalar v = true ->
  exists x : Value,
    NewValue v = Ok x /\
    AsInterface (Some x) =
    Ok (match v with
        | DFloat _ _ S754_nan => DString None "NaN"
        | DFloat _ _ (S754_infinity false) => DString None "Infinity"
        | DFloat _ _ (S754_infinity true) => DString None "-Infinity"
        | _ => v
        end).
Proof.
  destruct v as [|[?|] b|? ? ?|[?|] [|] f|[?|] s| | | | |]; simpl;
    try discriminate; intros H.
  - eexists; split; reflexivity.
  - eexists; split; reflexivity.
  - exists (NewNumberValue f). split; [reflexivity|].
    destruct f as [sg|[|]| |sg m e]; reflexivity.
  - exists (NewStringValue s). split; [|reflexivity].
    unfold type_assert; simpl. now rewrite H.
Qed.

Lemma roundtrip_scalar_witness :
  scalar (DString None "hello") = true /\
  exists x : Value,
    NewValue (DString None "hello") = Ok x /\
    AsInterface (Some x) = Ok (DString None "hello").
Proof.
  split; [reflexivity|].
  apply (roundtrip_scalar (DString None "hello")). reflexivity.
Defined.


(** *** The type switch of NewValue *)

Lemma Kind_defined (d : option string) (u : GoType) : Kind (defined d u) = Kind u.
Proof. now destruct d. Qed.

(** A value whose kind has no case in the switch is answered with the
    invalid-type error, which names the type. *)
Lemma NewValue_unrecognized (v : Dyn) :
  v <> DNil ->
  ~ In (Kind (TypeOf v)) recognized_kinds ->
  NewValue v = Err (ErrInvalidType (type_string (TypeOf v))).
Proof.
  intros Hnil Hkind.
  destruct v as [|d b|d k n|d k f|d s|t|name flat|d K V entries|d E elems|d o];
    try (exfalso; apply Hkind; simpl; rewrite ?Kind_defined; simpl; tauto).
  - destruct d, k; simpl in *; try reflexivity; exfalso; apply Hkind; tauto.
  - destruct d, k; simpl in *; exfalso; apply Hkind; tauto.
  - destruct d, o; reflexivity.
Qed.

(** C10: the switch goes by the kind, the conversion by an assertion of the
    predeclared type.  A value of a defined type whose kind is Bool, Int,
    Int32, Int64, Uint, Uint32, Uint64, Float32, Float64 or String makes
    [NewValue] panic on the assertion; no error is returned. *)
Theorem defined_type_panics (v : Dyn) (name : string) (under : GoType) :
  TypeOf v = TDefined name under ->
  In (Kind (TypeOf v)) asserted_kinds ->
  exists asserted : string,
    NewValue v = Panic (TypeAssertionError name asserted).
Proof.
  intros Hty Hkind.
  destruct v as [|d b|d k n|d k f|d s|t|nm flat|d K V entries|d E elems|d o];
    simpl in Hty; try discriminate.
  - destruct d; simpl in Hty; [|discriminate].
    injection Hty as -> _. eexists; reflexivity.
  - destruct d; simpl in Hty; [|discriminate].
    injection Hty as -> _.
    destruct k; simpl in Hkind;
      try (eexists; reflexivity);
      exfalso; repeat (destruct Hkind as [Hkind|Hkind]; [discriminate|]);
      destruct Hkind.
  - destruct d; simpl in Hty; [|discriminate].
    injection Hty as -> _.
    destruct k; eexists; reflexivity.
  - destruct d; simpl in Hty; [|discriminate].
    injection Hty as -> _. eexists; reflexivity.
  - destruct d; simpl in Hty; [|discriminate].
    simpl in Hkind. exfalso.
    repeat (destruct Hkind as [Hkind|Hkind]; [discriminate|]). destruct Hkind.
  - destruct d; simpl in Hty; [|discriminate].
    simpl in Hkind. exfalso.
    repeat (destruct Hkind as [Hkind|Hkind]; [discriminate|]). destruct Hkind.
  - destruct d; simpl in Hty; [|destruct o; discriminate].
    simpl in Hkind. exfalso.
    destruct o; simpl in Hkind;
      repeat (destruct Hkind as [Hkind|Hkind]; [discriminate|]); destruct Hkind.
Qed.

Lemma defined_type_panics_witness :
  TypeOf (DInt (Some "main.MyInt") KInt 3) = TDefined "main.MyInt" (TInt KInt) /\
  In (Kind (TypeOf (DInt (Some "main.MyInt") KInt 3))) asserted_kinds /\
  exists asserted : string,
    NewValue (DInt (Some "main.MyInt") KInt 3)
    = Panic (TypeAssertionError "main.MyInt" asserted).
Proof.
  split; [reflexivity|].
  split; [simpl; tauto|].
  apply (@defined_type_panics (DInt (Some "main.MyInt") KInt 3)
                              "main.MyInt" (TInt KInt)).
  - reflexivity.
  - simpl; tauto.
Defined.

(** *** Slices *)

Lemma NewValue_DSlice (d : option string) (E : GoType) (elems : list Dyn) :
  not_bytes (DSlice d E elems) ->
  NewValue (DSlice d E elems) =
  (listVal <- unpack_loop NewValue elems 0 (repeat None (List.length elems)) ;;
   Ok (NewListValue (Some listVal))).
Proof.
  unfold not_bytes. intros H.
  destruct d; cbn -[type_is unpack_loop]; now rewrite H.
Qed.

(** C2 on the code: in a slice other than a byte slice, the first element
    for which [NewValue] returns an error makes [NewValue] of the slice
    panic.  No error is returned: building the error, which would name the
    type of the element and print the slice, calls [Field] on the slice
    Value. *)
Theorem slice_element_error_panics
        (d : option string) (E : GoType) (pre : list Dyn) (e : Dyn)
        (post : list Dyn) (err : Error) :
  not_bytes (DSlice d E (pre ++ e :: post)) ->
  Forall (fun a => exists val, NewValue a = Ok val) pre ->
  NewValue e = Err err ->
  NewValue (DSlice d E (pre ++ e :: post))
  = Panic (ValueError "reflect.Value.Field" reflect.Slice).
Proof.
  intros Hb Hpre He.
  rewrite NewValue_DSlice by assumption.
  pose proof (@unpack_loop_error _ NewValue pre e post err [] Hpre He) as Hloop.
  simpl in Hloop. now rewrite Hloop.
Qed.

Lemma slice_element_error_panics_witness :
  not_bytes (DSliceOf [DString None bad_utf8]) /\
  NewValue (DString None bad_utf8) = Err (ErrInvalidUTF8 bad_utf8) /\
  NewValue (DSliceOf [DString None bad_utf8])
  = Panic (ValueError "reflect.Value.Field" reflect.Slice).
Proof.
  split; [reflexivity|].
  split; [reflexivity|].
  apply (@slice_element_error_panics None TInterface [] (DString None bad_utf8)
                                     [] (ErrInvalidUTF8 bad_utf8)).
  - reflexivity.
  - constructor.
  - reflexivity.
Defined.

(** C4 at a slice that holds a channel: the element is answered with the
    invalid-type error, and [NewValue] of the slice, instead of handing that
    error on, panics. *)
Theorem slice_of_unsupported_panics :
  NewValue (DOther None (OChan (TInt KInt))) = Err (ErrInvalidType "chan int") /\
  NewValue (DSliceOf [DOther None (OChan (TInt KInt))])
  = Panic (ValueError "reflect.Value.Field" reflect.Slice).
Proof. split; reflexivity. Qed.




(** *** Maps *)

Lemma encode_entries_map_values {K : Type} (f : Dyn -> Result Value)
      (entries : list (K * Dyn)) :
  encode_entries f entries = map_values f entries.
Proof. reflexivity. Qed.

Lemma map_set_In {A : Type} (m : list (string * A)) (k' : string) (a' : A) :
  forall (k : string) (a : A),
    In (k, a) (map_set m k' a') -> (k, a) = (k', a') \/ In (k, a) m.
Proof.
  induction m as [|[k0 a0] m IH]; intros k a H; simpl in *.
  - destruct H as [H|[]]. now left.
  - destruct (String.eqb k0 k'); simpl in H.
    + destruct H as [H|H]; [now left|now right; right].
    + destruct H as [H|H]; [now right; left|].
      destruct (IH _ _ H); [now left|now right; right].
Qed.

Lemma map_set_assigned {A : Type} (m : list (string * A)) (k : string) (a : A) :
  In (k, a) (map_set m k a).
Proof.
  induction m as [|[k0 a0] m IH]; simpl; [now left|].
  destruct (String.eqb k0 k); simpl; [now left|now right].
Qed.

Lemma map_set_keeps_keys {A : Type} (m : list (string * A)) (k : string) (a : A) :
  forall (k0 : string) (a0 : A),
    In (k0, a0) m -> exists a1, In (k0, a1) (map_set m k a).
Proof.
  induction m as [|[k1 a1] m IH]; intros k0 a0 H; simpl in *; [destruct H|].
  destruct (String.eqb k1 k) eqn:E.
  - apply String.eqb_eq in E. subst k1.
    destruct H as [H|H]; [injection H as <- <-|]; simpl; eauto.
  - destruct H as [H|H]; [injection H as <- <-; simpl; eauto|].
    destruct (IH _ _ H) as (a2 & H2). simpl; eauto.
Qed.

Lemma map_set_map_values {A B : Type} (f : A -> B) (m : list (string * A))
      (k : string) (a : A) :
  map_set (map_values f m) k (f a) = map_values f (map_set m k a).
Proof.
  induction m as [|[k0 a0] m IH]; simpl; [reflexivity|].
  destruct (String.eqb k0 k); simpl; [reflexivity|].
  now rewrite IH.
Qed.

Section MapFacts.

Variables A B : Type.
Variable f : A -> B.
Variable encode : B -> Result Value.

(** Encoding the entries ahead of the loop, or inside it, is the same. *)
Lemma NewStruct_loop_map_values (v : list (string * A)) :
  forall data,
    NewStruct_loop encode (map_values f v) data
    = NewStruct_loop (fun a => encode (f a)) v data.
Proof.
  induction v as [|[k a] v IH]; intros data; simpl; [reflexivity|].
  destruct (utf8.ValidString k); simpl; [|reflexivity].
  destruct (encode (f a)); simpl; auto.
Qed.

Lemma MapRange_loop_from (K : GoType) (entries : list (Dyn * A)) :
  forall init : list (string * A),
    fold_left
      (fun reflected e =>
         match e with (k, mv) => map_set reflected (Value_String K k) mv end)
      (map_values f entries) (map_values f init)
    = map_values f
        (fold_left
           (fun reflected e =>
              match e with (k, mv) => map_set reflected (Value_String K k) mv end)
           entries init).
Proof.
  induction entries as [|[k mv] entries IH]; intros init; simpl; [reflexivity|].
  now rewrite map_set_map_values, IH.
Qed.

Lemma MapRange_loop_map_values (K : GoType) (entries : list (Dyn * A)) :
  MapRange_loop K (map_values f entries) = map_values f (MapRange_loop K entries).
Proof. exact (MapRange_loop_from K entries []). Qed.

End MapFacts.

Section StructLoopFacts.

Variable A : Type.
Variable encode : A -> Result Value.

(** A key that is not valid UTF-8 leaves the loop of [NewStruct] no way to
    return a Struct. *)
Lemma NewStruct_loop_bad_key (v : list (string * A)) (k : string) (a : A) :
  In (k, a) v -> utf8.ValidString k = false ->
  forall data s, NewStruct_loop encode v data <> Ok s.
Proof.
  induction v as [|[k0 a0] v IH]; intros Hin Hk data s; simpl.
  - destruct Hin.
  - destruct (utf8.ValidString k0) eqn:Hk0; simpl; [|discriminate].
    destruct Hin as [Heq|Hin]; [injection Heq as -> ->; congruence|].
    destruct (encode a0); simpl; try discriminate. now apply IH.
Qed.

(** Nor does an entry whose value does not encode. *)
Lemma NewStruct_loop_bad_value (v : list (string * A)) (k : string) (a : A) :
  In (k, a) v -> (forall x, encode a <> Ok x) ->
  forall data s, NewStruct_loop encode v data <> Ok s.
Proof.
  induction v as [|[k0 a0] v IH]; intros Hin Ha data s; simpl.
  - destruct Hin.
  - destruct (utf8.ValidString k0); simpl; [|discriminate].
    destruct (encode a0) as [x| |] eqn:Ha0; simpl; try discriminate.
    destruct Hin as [Heq|Hin]; [|now apply IH].
    injection Heq as -> ->. exfalso. now apply (Ha x).
Qed.

(** The first key that is not valid UTF-8, when the entries before it went
    through, ends the loop with the invalid-encoding error for that key. *)
Lemma NewStruct_loop_first_bad_key (pre : list (string * A)) :
  forall (k : string) (a : A) (post : list (string * A)) data,
    Forall (fun e => utf8.ValidString (fst e) = true /\
                     exists x, encode (snd e) = Ok x) pre ->
    utf8.ValidString k = false ->
    NewStruct_loop encode (pre ++ (k, a) :: post) data = Err (ErrInvalidUTF8 k).
Proof.
  induction pre as [|[k0 a0] pre IH]; intros k a post data Hpre Hk; simpl.
  - now rewrite Hk.
  - inversion Hpre as [|? ? (Hk0 & x & Hx) Hpre']; subst; simpl in *.
    rewrite Hk0, Hx. simpl. now apply IH.
Qed.

(** When every key is valid and every value encodes, the loop returns a
    Struct, and each entry of its map was assigned from an entry of the
    input. *)
Lemma NewStruct_loop_ok (v : list (string * A)) :
  forall data,
    Forall (fun e => utf8.ValidString (fst e) = true /\
                     exists x, encode (snd e) = Ok x) v ->
    exists s,
      NewStruct_loop encode v data = Ok s /\
      forall k x, In (k, x) (Data s) ->
                  In (k, x) data \/
                  exists a val, In (k, a) v /\ encode a = Ok val /\ x = Some val.
Proof.
  induction v as [|[k0 a0] v IH]; intros data Hall; simpl.
  - exists (mkStruct data). split; [reflexivity|]. intros k x H. now left.
  - inversion Hall as [|? ? (Hk0 & x0 & Hx0) Hall']; subst; simpl in *.
    rewrite Hk0, Hx0. simpl.
    destruct (IH (map_set data k0 (Some x0)) Hall') as (s & Hs & Hin).
    exists s. split; [assumption|].
    intros k x H. destruct (Hin k x H) as [H'|(a & val & Ha & Hval & ->)].
    + destruct (map_set_In _ _ _ _ _ H') as [Heq|Hd]; [|now left].
      injection Heq as -> ->. right. exists a0, x0. auto.
    + right. exists a, val. auto.
Qed.

(** And every key of the input, like every key the map had before the loop,
    is a key of the Struct. *)
Lemma NewStruct_loop_keys (v : list (string * A)) :
  forall data s,
    NewStruct_loop encode v data = Ok s ->
    (forall k x, In (k, x) data -> exists x', In (k, x') (Data s)) /\
    (forall k a, In (k, a) v -> exists x', In (k, x') (Data s)).
Proof.
  induction v as [|[k0 a0] v IH]; intros data s H; simpl in H.
  - injection H as <-. split; [eauto|]. intros k a [].
  - destruct (utf8.ValidString k0); simpl in H; [|discriminate].
    destruct (encode a0) as [x0| |]; simpl in H; try discriminate.
    destruct (IH _ _ H) as (Hdata & Hv). split.
    + intros k x Hk.
      destruct (map_set_keeps_keys data k0 (Some x0) _ _ Hk) as (x1 & Hx1).
      eauto.
    + intros k a [Heq|Hk]; [|eauto].
      injection Heq as <- <-.
      exact (Hdata _ _ (map_set_assigned data k0 (Some x0))).
Qed.

Lemma MapRange_loop_keys (K : GoType) (entries : list (Dyn * A)) :
  forall init : list (string * A),
    let reflected :=
      fold_left
        (fun reflected e =>
           match e with (k, mv) => map_set reflected (Value_String K k) mv end)
        entries init in
    (forall k a, In (k, a) init -> exists a', In (k, a') reflected) /\
    (forall key mv, In (key, mv) entries ->
                    exists a', In (Value_String K key, a') reflected).
Proof.
  induction entries as [|[key0 mv0] entries IH]; intros init; simpl.
  - split; [eauto|]. intros key mv [].
  - destruct (IH (map_set init (Value_String K key0) mv0)) as (Hinit & Hentries).
    split.
    + intros k a Hk.
      destruct (map_set_keeps_keys init (Value_String K key0) mv0 _ _ Hk)
        as (a1 & Ha1).
      eauto.
    + intros key mv [Heq|Hk]; [|eauto].
      injection Heq as <- <-.
      exact (Hinit _ _ (map_set_assigned init (Value_String K key0) mv0)).
Qed.

(** What the loop over [MapRange] assigns: the keys are the strings
    [reflect.Value.String] makes of the keys of the map. *)
Lemma MapRange_loop_In (K : GoType) (entries : list (Dyn * A)) :
  forall (init : list (string * A)) (k : string) (a : A),
    In (k, a)
       (fold_left
          (fun reflected e =>
             match e with (k, mv) => map_set reflected (Value_String K k) mv end)
          entries init) ->
    In (k, a) init \/
    exists key, In (key, a) entries /\ k = Value_String K key.
Proof.
  induction entries as [|[key0 mv0] entries IH]; intros init k a H; simpl in *.
  - now left.
  - destruct (IH _ _ _ H) as [H'|(key & Hkey & ->)].
    + destruct (map_set_In _ _ _ _ _ H') as [Heq|Hi]; [|now left].
      injection Heq as -> ->. right. exists key0. auto.
    + right. exists key. auto.
Qed.

End StructLoopFacts.

(** The Map case of [NewValue] on a [map[string]interface{}], and the Struct
    case, which makes such a map and calls [NewValue] on it: both are
    [NewStruct] on the map. *)
Lemma NewValue_DMapOf (m : list (string * Dyn)) :
  NewValue (DMapOf m) = convert_struct (NewStruct m).
Proof.
  unfold DMapOf, NewStruct.
  cbn -[NewStruct_loop type_is as_string_map encode_entries MapRange_loop].
  unfold type_is. simpl GoType_eq_dec. cbv iota.
  f_equal. unfold as_string_map, encode_entries. rewrite map_map, map_map.
  transitivity (NewStruct_loop (fun r => r) (map_values NewValue m) []).
  - f_equal. unfold map_values. apply map_ext. now intros [k v].
  - apply NewStruct_loop_map_values.
Qed.

Lemma NewValue_DStruct (name : string) (interMap : list (string * Dyn)) :
  NewValue (DStruct name (inr interMap)) = NewValue (DMapOf interMap).
Proof.
  rewrite NewValue_DMapOf. unfold NewStruct.
  cbn -[NewStruct_loop encode_entries].
  now rewrite encode_entries_map_values, NewStruct_loop_map_values.
Qed.

(** The Map case of [NewValue] on a map of any other type: [NewStruct] on
    the map the loop over [MapRange] has filled. *)
Lemma NewValue_DMap (d : option string) (K V : GoType) (entries : list (Dyn * Dyn)) :
  type_is (DMap d K V entries) map_string_interface = false ->
  NewValue (DMap d K V entries)
  = convert_struct (NewStruct (MapRange_loop K entries)).
Proof.
  intros H. unfold NewStruct.
  destruct d; cbn -[NewStruct_loop type_is as_string_map encode_entries MapRange_loop];
    rewrite H;
    now rewrite encode_entries_map_values, MapRange_loop_map_values,
                NewStruct_loop_map_values.
Qed.


(** *** Strings and keys that are not valid UTF-8 *)

Lemma convert_struct_not_Ok (r : Result Struct) :
  (forall s, r <> Ok s) -> forall x, convert_struct r <> Ok x.
Proof.
  intros H x. destruct r as [s| |]; simpl; try discriminate.
  now elim (H s).
Qed.

(** The claim of C5 fails on a map in which an entry with an unsupported
    value is iterated before the entry with the bad key: the error is the
    invalid-type error of the value, with no invalid-encoding error in it. *)
Lemma earlier_entry_error_comes_first :
  ~ (exists (e : Error) (k : string),
        NewValue (DMapOf [("a", DOther None (OChan (TInt KInt)));
                          (bad_utf8, DNil)]) = Err e /\
        root_cause e = ErrInvalidUTF8 k).
Proof.
  intros (e & k & He & Hroot).
  vm_compute in He. injection He as <-.
  simpl in Hroot. discriminate.
Qed.

(** *** Maps whose keys are not strings *)

Lemma Value_String_not_string (K : GoType) (k : Dyn) :
  Kind K <> reflect.String ->
  Value_String K k = ("<" ++ type_string K ++ " Value>")%string.
Proof.
  intros H. unfold Value_String.
  destruct (Kind K); try reflexivity. now elim H.
Qed.

Lemma not_string_map (d : option string) (K V : GoType) (entries : list (Dyn * Dyn)) :
  Kind K <> reflect.String ->
  type_is (DMap d K V entries) map_string_interface = false.
Proof.
  intros H. unfold type_is.
  destruct (GoType_eq_dec (TypeOf (DMap d K V entries)) map_string_interface)
    as [Heq|]; [|reflexivity].
  destruct d; simpl in Heq; [discriminate|].
  injection Heq as -> _. now elim H.
Qed.

(** C9: a map whose key type is not of kind String is not rejected for its
    keys.  When its values encode, [NewValue] returns a Struct variant; every
    key of the Struct is the text [reflect.Value.String] makes of a key of
    the map, which is the key type between angle brackets, and the text made
    of every key of the map is a key of the Struct. *)
Theorem non_string_keys_coerced
        (d : option string) (K V : GoType) (entries : list (Dyn * Dyn)) :
  Kind K <> reflect.String ->
  utf8.ValidString ("<" ++ type_string K ++ " Value>")%string = true ->
  Forall (fun e => exists x, NewValue (snd e) = Ok x) entries ->
  exists s : Struct,
    NewValue (DMap d K V entries) = Ok (NewStructValue (Some s)) /\
    (forall (k : string) (x : option Value),
        In (k, x) (Data s) ->
        k = ("<" ++ type_string K ++ " Value>")%string /\
        exists (key mv : Dyn) (val : Value),
          In (key, mv) entries /\ k = Value_String K key /\
          NewValue mv = Ok val /\ x = Some val) /\
    (forall key mv : Dyn,
        In (key, mv) entries ->
        exists x : option Value, In (Value_String K key, x) (Data s)).
Proof.
  intros HK Hvalid Hvalues.
  rewrite NewValue_DMap by now apply not_string_map.
  destruct (@NewStruct_loop_ok _ NewValue (MapRange_loop K entries) [])
    as (s & Hs & Hdata).
  { apply Forall_forall. intros [k mv] Hin. simpl.
    destruct (MapRange_loop_In K entries [] k mv Hin) as [[]|(key & Hkey & ->)].
    split.
    - now rewrite Value_String_not_string.
    - rewrite Forall_forall in Hvalues. exact (Hvalues _ Hkey). }
  exists s. unfold NewStruct. rewrite Hs. split; [reflexivity|]. split.
  - intros k x Hin.
    destruct (Hdata k x Hin) as [[]|(mv & val & Hmv & Hval & ->)].
    destruct (MapRange_loop_In K entries [] k mv Hmv) as [[]|(key & Hkey & ->)].
    split; [now apply Value_String_not_string|].
    exists key, mv, val. auto.
  - intros key mv Hin.
    destruct (MapRange_loop_keys K entries []) as (_ & Hkeys).
    destruct (Hkeys key mv Hin) as (a' & Ha').
    destruct (NewStruct_loop_keys NewValue _ _ Hs) as (_ & Hs').
    exact (Hs' _ _ Ha').
Qed.

Lemma non_string_keys_coerced_witness :
  Kind (TInt KInt) <> reflect.String /\
  utf8.ValidString ("<" ++ type_string (TInt KInt) ++ " Value>")%string = true /\
  Forall (fun e => exists x, NewValue (snd e) = Ok x)
         [(DInt None KInt 1, DBool None true); (DInt None KInt 2, DNil)] /\
  exists s : Struct,
    NewValue (DMap None (TInt KInt) TInterface
                   [(DInt None KInt 1, DBool None true); (DInt None KInt 2, DNil)])
    = Ok (NewStructValue (Some s)) /\
    (forall (k : string) (x : option Value),
        In (k, x) (Data s) ->
        k = "<int Value>"%string /\
        exists (key mv : Dyn) (val : Value),
          In (key, mv) [(DInt None KInt 1, DBool None true); (DInt None KInt 2, DNil)] /\
          k = Value_String (TInt KInt) key /\
          NewValue mv = Ok val /\ x = Some val) /\
    (forall key mv : Dyn,
        In (key, mv) [(DInt None KInt 1, DBool None true); (DInt None KInt 2, DNil)] ->
        exists x : option Value, In (Value_String (TInt KInt) key, x) (Data s)).
Proof.
  assert (HK : Kind (TInt KInt) <> reflect.String) by discriminate.
  assert (Hvalid : utf8.ValidString
                     ("<" ++ type_string (TInt KInt) ++ " Value>")%string = true)
    by reflexivity.
  assert (Hvalues : Forall (fun e => exists x, NewValue (snd e) = Ok x)
                           [(DInt None KInt 1, DBool None true);
                            (DInt None KInt 2, DNil)]).
  { repeat constructor; eexists; reflexivity. }
  split; [exact HK|]. split; [exact Hvalid|]. split; [exact Hvalues|].
  exact (@non_string_keys_coerced None (TInt KInt) TInterface
           [(DInt None KInt 1, DBool None true); (DInt None KInt 2, DNil)]
           HK Hvalid Hvalues).
Defined.

(** With keys of type int, the entries of the map fall on the one key
    [<int Value>]; the Struct keeps the entry iterated last. *)
Example int_keys_collapse :
  NewValue (DMap None (TInt KInt) TInterface
                 [(DInt None KInt 1, DBool None true); (DInt None KInt 2, DNil)])
  = Ok (NewStructValue (Some (mkStruct [("<int Value>", Some NewNullValue)]))).
Proof. reflexivity. Qed.


(* ===================================================================== *)
(** ** Further properties of the conversion *)
(* ===================================================================== *)

(** *** Failures of NewList and NewStruct *)

Section FirstFailure.

Variable A : Type.
Variable encode : A -> Result Value.

Lemma NewList_loop_first_error (pre : list A) :
  forall (e : A) (post : list A) (err : Error) (done : list (option Value)),
    Forall (fun a => exists val, encode a = Ok val) pre ->
    encode e = Err err ->
    NewList_loop encode (pre ++ e :: post) (List.length done)
                 (done ++ repeat None (List.length (pre ++ e :: post)))
    = Err err.
Proof.
  induction pre as [|a pre IH]; intros e post err done Hpre He; simpl.
  - now rewrite He.
  - inversion Hpre as [|? ? (val & Ha) Hpre']; subst. rewrite Ha. simpl.
    rewrite slice_set_app.
    rewrite (snoc_app done (Some val)), <- (length_snoc done (Some val)).
    now apply IH.
Qed.

Lemma NewList_loop_first_panic (pre : list A) :
  forall (e : A) (post : list A) (p : PanicValue) (done : list (option Value)),
    Forall (fun a => exists val, encode a = Ok val) pre ->
    encode e = Panic p ->
    NewList_loop encode (pre ++ e :: post) (List.length done)
                 (done ++ repeat None (List.length (pre ++ e :: post)))
    = Panic p.
Proof.
  induction pre as [|a pre IH]; intros e post p done Hpre He; simpl.
  - now rewrite He.
  - inversion Hpre as [|? ? (val & Ha) Hpre']; subst. rewrite Ha. simpl.
    rewrite slice_set_app.
    rewrite (snoc_app done (Some val)), <- (length_snoc done (Some val)).
    now apply IH.
Qed.

Lemma NewStruct_loop_first_failure (pre : list (string * A)) :
  forall (k : string) (a : A) (post : list (string * A)) data,
    Forall (fun e => utf8.ValidString (fst e) = true /\
                     exists x, encode (snd e) = Ok x) pre ->
    utf8.ValidString k = true ->
    (forall x, encode a <> Ok x) ->
    NewStruct_loop encode (pre ++ (k, a) :: post) data
    = match encode a with
      | Ok _ => Panic NilDereference
      | Err err => Err err
      | Panic p => Panic p
      end.
Proof.
  induction pre as [|[k0 a0] pre IH]; intros k a post data Hpre Hk Ha; simpl.
  - rewrite Hk. simpl. destruct (encode a) as [x| |]; simpl; try reflexivity.
    now elim (Ha x).
  - inversion Hpre as [|? ? (Hk0 & x & Hx) Hpre']; subst; simpl in *.
    rewrite Hk0, Hx. simpl. now apply IH.
Qed.

End FirstFailure.

(** [NewList] stops at the first element that [NewValue] does not encode and
    hands on what [NewValue] gave for it, an error as it is or a panic: the
    error gets no context, and unlike in the Slice case of [NewValue] it is
    returned. *)
Theorem NewList_first_failure (pre : list Dyn) (e : Dyn) (post : list Dyn) :
  Forall (fun a => exists val, NewValue a = Ok val) pre ->
  (forall err, NewValue e = Err err -> NewList (pre ++ e :: post) = Err err) /\
  (forall p, NewValue e = Panic p -> NewList (pre ++ e :: post) = Panic p).
Proof.
  intros Hpre. split.
  - intros err He.
    exact (@NewList_loop_first_error _ NewValue pre e post err [] Hpre He).
  - intros p He.
    exact (@NewList_loop_first_panic _ NewValue pre e post p [] Hpre He).
Qed.

Lemma NewList_first_failure_witness :
  Forall (fun a => exists val, NewValue a = Ok val) [DBool None true] /\
  NewList [DBool None true; DString None bad_utf8; DNil]
  = Err (ErrInvalidUTF8 bad_utf8).
Proof.
  assert (H : Forall (fun a => exists val, NewValue a = Ok val) [DBool None true]).
  { repeat constructor. eexists; reflexivity. }
  split; [exact H|].
  apply (proj1 (@NewList_first_failure [DBool None true] (DString None bad_utf8)
                                       [DNil] H)).
  reflexivity.
Defined.

(** [NewStruct] stops at the first entry whose value [NewValue] does not
    encode, when the keys up to it are valid, and returns the error of that
    value as it is, without the key; [NewValue] of the map wraps the error
    once.  A panic of the value is the panic of both. *)
Theorem NewStruct_first_value_failure
        (pre : list (string * Dyn)) (k : string) (v : Dyn)
        (post : list (string * Dyn)) :
  Forall (fun e => utf8.ValidString (fst e) = true /\
                   exists x, NewValue (snd e) = Ok x) pre ->
  utf8.ValidString k = true ->
  (forall err, NewValue v = Err err ->
               NewStruct (pre ++ (k, v) :: post) = Err err /\
               NewValue (DMapOf (pre ++ (k, v) :: post))
               = Err (ErrConvertStruct err)) /\
  (forall p, NewValue v = Panic p ->
             NewStruct (pre ++ (k, v) :: post) = Panic p /\
             NewValue (DMapOf (pre ++ (k, v) :: post)) = Panic p).
Proof.
  intros Hpre Hk. split.
  - intros err He.
    assert (H : NewStruct (pre ++ (k, v) :: post) = Err err).
    { unfold NewStruct.
      rewrite (@NewStruct_loop_first_failure _ NewValue pre k v post [] Hpre Hk).
      - now rewrite He.
      - intros x Hx. congruence. }
    split; [exact H|]. now rewrite NewValue_DMapOf, H.
  - intros p He.
    assert (H : NewStruct (pre ++ (k, v) :: post) = Panic p).
    { unfold NewStruct.
      rewrite (@NewStruct_loop_first_failure _ NewValue pre k v post [] Hpre Hk).
      - now rewrite He.
      - intros x Hx. congruence. }
    split; [exact H|]. now rewrite NewValue_DMapOf, H.
Qed.

Lemma NewStruct_first_value_failure_witness :
  NewStruct [("a", DNil); ("b", DOther None (OChan TBool)); ("c", DNil)]
  = Err (ErrInvalidType "chan bool") /\
  NewValue (DMapOf [("a", DNil); ("b", DOther None (OChan TBool)); ("c", DNil)])
  = Err (ErrConvertStruct (ErrInvalidType "chan bool")).
Proof.
  apply (proj1 (@NewStruct_first_value_failure
                  [("a", DNil)] "b" (DOther None (OChan TBool)) [("c", DNil)]
                  ltac:(repeat constructor; eexists; reflexivity) eq_refl)).
  reflexivity.
Defined.

(** *** Kinds without a case *)

Lemma NewValue_unrecognized_witness :
  DInt None KInt8 3 <> DNil /\
  ~ In (Kind (TypeOf (DInt None KInt8 3))) recognized_kinds /\
  NewValue (DInt None KInt8 3) = Err (ErrInvalidType "int8").
Proof.
  assert (H1 : DInt None KInt8 3 <> DNil) by discriminate.
  assert (H2 : ~ In (Kind (TypeOf (DInt None KInt8 3))) recognized_kinds).
  { simpl. intros H.
    repeat (destruct H as [H|H]; [discriminate|]). destruct H. }
  split; [exact H1|]. split; [exact H2|].
  exact (@NewValue_unrecognized (DInt None KInt8 3) H1 H2).
Defined.

(** *** Points in time *)

(** A [time.Time] whose nanoseconds lie within the second is encoded to a
    Timestamp variant and decoded to the same instant, shown in UTC: the
    location is not kept. *)
Theorem time_round_trip (t : Time) :
  0 <= nanosecond t < 1000000000 ->
  exists x : Value,
    NewValue (DTime t) = Ok x /\
    AsInterface (Some x) = Ok (DTime (mkTime (unixSec t) (nanosecond t) "UTC")).
Proof.
  intros H. exists (NewTimestampValue t). split; [reflexivity|].
  destruct t as [sec ns loc]. cbn -[Z.div Z.modulo] in *.
  unfold timestamppb.AsTime, timestamppb.New, timestamppb.Unix_UTC.
  cbn -[Z.div Z.modulo].
  rewrite Z.div_small, Z.mod_small by assumption.
  now rewrite Z.add_0_r.
Qed.

Lemma time_round_trip_witness :
  0 <= nanosecond (mkTime 1700000000 5 "Europe/Paris") < 1000000000 /\
  exists x : Value,
    NewValue (DTime (mkTime 1700000000 5 "Europe/Paris")) = Ok x /\
    AsInterface (Some x) = Ok (DTime (mkTime 1700000000 5 "UTC")).
Proof.
  assert (H : 0 <= nanosecond (mkTime 1700000000 5 "Europe/Paris") < 1000000000)
    by (simpl; lia).
  split; [exact H|].
  exact (@time_round_trip (mkTime 1700000000 5 "Europe/Paris") H).
Defined.

(** *** Slices never return an error *)

Lemma unpack_loop_not_Err (A : Type) (encode : A -> Result Value) (elems : list A) :
  forall (i : nat) (values : list (option Value)) (err : Error),
    unpack_loop encode elems i values <> Err err.
Proof.
  induction elems as [|e elems IH]; intros i values err; simpl.
  - discriminate.
  - destruct (encode e); try discriminate.
    destruct (slice_set values i (Some a)); [apply IH|discriminate].
Qed.

Lemma slice_never_errs
      (d : option string) (E : GoType) (elems : list Dyn) (err : Error) :
  NewValue (DSlice d E elems) <> Err err.
Proof.
  destruct (type_is (DSlice d E elems) (TSlice (TInt KUint8))) eqn:Hb.
  - destruct d; cbn -[type_is unpack_loop]; rewrite Hb; discriminate.
  - rewrite NewValue_DSlice by exact Hb.
    destruct (unpack_loop NewValue elems 0 (repeat None (List.length elems)))
      as [l|e|p] eqn:Hl; simpl; try discriminate.
    now elim (unpack_loop_not_Err NewValue elems 0 _ Hl).
Qed.

(** On a slice of any type, [NewValue] returns a Value or panics; the error
    result is never used. *)
Theorem slice_never_returns_error
        (d : option string) (E : GoType) (elems : list Dyn) (err : Error) :
  NewValue (DSlice d E elems) <> Err err.
Proof. apply slice_never_errs. Qed.


(** *** Containers of the induction principles *)

Lemma list_all_Forall {A : Type} (P : A -> Prop) (l : list A) :
  list_all P l -> Forall P l.
Proof. induction 1; constructor; assumption. Qed.

Lemma entries_all_values (P : Dyn -> Prop) (entries : list (Dyn * Dyn)) :
  list_all (prod_all P P) entries ->
  forall key v, In (key, v) entries -> P v.
Proof.
  induction 1 as [|e He entries _ IH]; intros key v Hin; simpl in Hin.
  - destruct Hin.
  - destruct Hin as [->|Hin]; [|eauto]. now inversion He.
Qed.

Lemma fields_all_values (P : Dyn -> Prop) (m : list (string * Dyn)) :
  list_all (prod_all (fun _ : string => unit) P) m ->
  forall k v, In (k, v) m -> P v.
Proof.
  induction 1 as [|e He m _ IH]; intros k v Hin; simpl in Hin.
  - destruct Hin.
  - destruct Hin as [->|Hin]; [|eauto]. now inversion He.
Qed.

(** *** The Map case, whatever the type of the map *)

Lemma as_string_map_map_values (A B : Type) (f : A -> B) (entries : list (Dyn * A)) :
  as_string_map (map_values f entries) = map_values f (as_string_map entries).
Proof.
  unfold as_string_map, map_values. rewrite !map_map.
  apply map_ext. now intros [k a].
Qed.

Lemma as_string_map_In (A : Type) (entries : list (Dyn * A)) (k : string) (a : A) :
  In (k, a) (as_string_map entries) -> exists key, In (key, a) entries.
Proof.
  unfold as_string_map. rewrite in_map_iff.
  intros ([key a'] & Heq & Hin). injection Heq as _ <-. eauto.
Qed.

(** [NewValue] of a map is [NewStruct] on a map whose values are values of
    the input. *)
Lemma NewValue_DMap_cases (d : option string) (K V : GoType)
      (entries : list (Dyn * Dyn)) :
  exists reflected : list (string * Dyn),
    NewValue (DMap d K V entries) = convert_struct (NewStruct reflected) /\
    forall k a, In (k, a) reflected -> exists key, In (key, a) entries.
Proof.
  destruct (type_is (DMap d K V entries) map_string_interface) eqn:Hty.
  - exists (as_string_map entries). split; [|apply as_string_map_In].
    unfold NewStruct.
    destruct d;
      cbn -[NewStruct_loop type_is as_string_map encode_entries MapRange_loop];
      rewrite Hty;
      now rewrite encode_entries_map_values, as_string_map_map_values,
                  NewStruct_loop_map_values.
  - exists (MapRange_loop K entries). split; [now apply NewValue_DMap|].
    intros k a Hin.
    destruct (MapRange_loop_In K entries [] k a Hin) as [[]|(key & Hkey & _)].
    eauto.
Qed.

Lemma convert_struct_Ok (r : Result Struct) (x : Value) :
  convert_struct r = Ok x ->
  exists s, r = Ok s /\ x = NewStructValue (Some s).
Proof.
  destruct r as [s| |]; simpl; intros H; try discriminate.
  injection H as <-. eauto.
Qed.

Lemma convert_struct_Panic (r : Result Struct) (p : PanicValue) :
  convert_struct r = Panic p -> r = Panic p.
Proof. destruct r; simpl; intros H; try discriminate. now injection H as <-. Qed.

(** *** Assignments, once more *)

Lemma slice_set_In {A : Type} (s : list A) :
  forall (i : nat) (a : A) (s' : list A),
    slice_set s i a = Some s' ->
    forall x, In x s' -> x = a \/ In x s.
Proof.
  induction s as [|b s IH]; intros [|i] a s' H x Hx; simpl in H;
    try discriminate.
  - injection H as <-. destruct Hx as [<-|Hx]; [now left|now right; right].
  - destruct (slice_set s i a) as [r|] eqn:Hr; [|discriminate].
    injection H as <-. destruct Hx as [<-|Hx]; [now right; left|].
    destruct (IH _ _ _ Hr _ Hx); [now left|now right; right].
Qed.

(** *** Text that is valid UTF-8 *)

Lemma ValidString_of_ascii (s : string) :
  Forall (fun c => utf8.byte_val c < utf8.RuneSelf) (list_ascii_of_string s) ->
  utf8.ValidString s = true.
Proof.
  induction s as [|c s IH]; intros H; [reflexivity|].
  simpl in H. inversion H as [|? ? Hc Hs]; subst.
  cbn [utf8.ValidString].
  apply Z.ltb_lt in Hc. rewrite Hc. now apply IH.
Qed.

Lemma get_In (s : string) :
  forall (n : nat) (c : ascii),
    String.get n s = Some c -> In c (list_ascii_of_string s).
Proof.
  induction s as [|c0 s IH]; intros [|n] c H; simpl in *; try discriminate.
  - injection H as <-. now left.
  - right. eauto.
Qed.

Lemma enc_ascii (i : Z) : utf8.byte_val (base64.enc i) < utf8.RuneSelf.
Proof.
  unfold base64.enc.
  destruct (String.get (Z.to_nat i) base64.encodeStd) as [c|] eqn:Hget.
  - apply get_In in Hget.
    assert (Hall : forallb (fun c => utf8.byte_val c <? utf8.RuneSelf)
                           (list_ascii_of_string base64.encodeStd) = true)
      by reflexivity.
    rewrite forallb_forall in Hall. apply Z.ltb_lt. now apply Hall.
  - reflexivity.
Qed.

Lemma EncodeToString_ascii (n : nat) :
  forall src : list Z,
    (List.length src <= n)%nat ->
    Forall (fun c => utf8.byte_val c < utf8.RuneSelf)
           (list_ascii_of_string (base64.EncodeToString src)).
Proof.
  induction n as [|n IH]; intros src Hlen.
  - destruct src; [constructor|simpl in Hlen; lia].
  - destruct src as [|a [|b [|c rest]]]; cbn [base64.EncodeToString].
    + constructor.
    + repeat constructor; try apply enc_ascii; reflexivity.
    + repeat constructor; try apply enc_ascii; reflexivity.
    + cbn [list_ascii_of_string].
      repeat (constructor; [apply enc_ascii|]).
      apply IH. simpl in Hlen. lia.
Qed.

(** The base64 text of any bytes is valid UTF-8. *)
Lemma EncodeToString_valid (src : list Z) :
  utf8.ValidString (base64.EncodeToString src) = true.
Proof.
  apply ValidString_of_ascii.
  now apply EncodeToString_ascii with (n := List.length src).
Qed.


(** *** The Values NewValue returns hold valid text *)

Lemma valid_text_Struct (data : list (string * option Value)) :
  valid_text (NewStructValue (Some (mkStruct data))) = true <->
  Forall (fun kv => utf8.ValidString (fst kv) = true /\
                    forall v, snd kv = Some v -> valid_text v = true) data.
Proof.
  cbn [valid_text NewStructValue Data]. rewrite forallb_forall, Forall_forall.
  split; intros H [k [v|]] Hin; specialize (H _ Hin); simpl in *.
  - apply andb_true_iff in H as (Hk & Hv). split; [assumption|].
    intros v' Hv'. now injection Hv' as <-.
  - split; [assumption|discriminate].
  - destruct H as (Hk & Hv). rewrite Hk. simpl. now apply Hv.
  - now destruct H.
Qed.

Lemma valid_text_List (values : list (option Value)) :
  valid_text (NewListValue (Some (mkListValue values))) = true <->
  Forall (fun pv => forall v, pv = Some v -> valid_text v = true) values.
Proof.
  cbn [valid_text NewListValue Values]. rewrite forallb_forall, Forall_forall.
  split; intros H [v|] Hin; specialize (H _ Hin); simpl in *;
    try reflexivity; try discriminate.
  - intros v' Hv'. now injection Hv' as <-.
  - now apply H.
Qed.

Section ValidTextLoops.

Variable A : Type.
Variable encode : A -> Result Value.

Lemma NewStruct_loop_valid_text (v : list (string * A)) :
  forall data s,
    NewStruct_loop encode v data = Ok s ->
    Forall (fun kv => utf8.ValidString (fst kv) = true /\
                      forall x, snd kv = Some x -> valid_text x = true) data ->
    (forall k a x, In (k, a) v -> encode a = Ok x -> valid_text x = true) ->
    Forall (fun kv => utf8.ValidString (fst kv) = true /\
                      forall x, snd kv = Some x -> valid_text x = true) (Data s).
Proof.
  induction v as [|[k0 a0] v IH]; intros data s H Hdata Henc; simpl in H.
  - now injection H as <-.
  - destruct (utf8.ValidString k0) eqn:Hk0; simpl in H; [|discriminate].
    destruct (encode a0) as [x0| |] eqn:Hx0; simpl in H; try discriminate.
    apply (IH _ _ H).
    + apply Forall_forall. intros [k x] Hin.
      destruct (map_set_In _ _ _ _ _ Hin) as [Heq|Hin'].
      * injection Heq as -> ->. simpl. split; [assumption|].
        intros x Hx. injection Hx as <-.
        apply (Henc k0 a0); [now left|assumption].
      * rewrite Forall_forall in Hdata. exact (Hdata _ Hin').
    + intros k a x Hin. apply (Henc k a). now right.
Qed.

Lemma unpack_loop_valid_text (elems : list A) :
  forall i values l,
    unpack_loop encode elems i values = Ok l ->
    Forall (fun pv => forall x, pv = Some x -> valid_text x = true) values ->
    (forall e x, In e elems -> encode e = Ok x -> valid_text x = true) ->
    Forall (fun pv => forall x, pv = Some x -> valid_text x = true) (Values l).
Proof.
  induction elems as [|e elems IH]; intros i values l H Hvalues Henc; simpl in H.
  - now injection H as <-.
  - destruct (encode e) as [x0| |] eqn:Hx0; try discriminate.
    destruct (slice_set values i (Some x0)) as [values'|] eqn:Hset;
      [|discriminate].
    apply (IH _ _ _ H).
    + apply Forall_forall. intros pv Hin.
      destruct (slice_set_In _ _ _ Hset _ Hin) as [->|Hin'].
      * intros x Hx. injection Hx as <-. apply (Henc e); [now left|assumption].
      * rewrite Forall_forall in Hvalues. exact (Hvalues _ Hin').
    + intros e' x Hin. apply (Henc e'). now right.
Qed.

End ValidTextLoops.

Lemma NewStruct_valid_text (m : list (string * Dyn)) (x : Value) :
  (forall k a y, In (k, a) m -> NewValue a = Ok y -> valid_text y = true) ->
  convert_struct (NewStruct m) = Ok x -> valid_text x = true.
Proof.
  intros Hm H. apply convert_struct_Ok in H as ([data] & Hs & ->).
  apply valid_text_Struct. unfold NewStruct in Hs.
  exact (@NewStruct_loop_valid_text _ NewValue m [] _ Hs (Forall_nil _) Hm).
Qed.

Lemma NewValue_valid_text_all (v : Dyn) :
  forall x, NewValue v = Ok x -> valid_text x = true.
Proof.
  induction v as [|d b|d k n|d k f|d s|t|name flat IH|d K V entries IH
                  |d E elems IH|d o]; intros x H.
  - injection H as <-. reflexivity.
  - destruct d; simpl in H; [discriminate|]. injection H as <-. reflexivity.
  - destruct d, k; simpl in H; try discriminate; injection H as <-; reflexivity.
  - destruct d, k; simpl in H; try discriminate; injection H as <-; reflexivity.
  - destruct d; simpl in H; [discriminate|].
    unfold type_assert in H. simpl in H.
    destruct (utf8.ValidString s) eqn:Hs; simpl in H; [|discriminate].
    injection H as <-. exact Hs.
  - injection H as <-. reflexivity.
  - destruct flat as [cause|interMap]; [discriminate|].
    rewrite NewValue_DStruct, NewValue_DMapOf in H.
    inversion IH as [|? IHm]; subst.
    apply (NewStruct_valid_text interMap); [|assumption].
    intros k a y Hin. exact (fields_all_values IHm _ _ Hin y).
  - destruct (NewValue_DMap_cases d K V entries) as (m & Hm & Hvalues).
    rewrite Hm in H. apply (NewStruct_valid_text m); [|assumption].
    intros k a y Hin. destruct (Hvalues _ _ Hin) as (key & Hkey).
    exact (entries_all_values IH _ _ Hkey y).
  - destruct (type_is (DSlice d E elems) (TSlice (TInt KUint8))) eqn:Hb.
    + destruct d; cbn -[type_is unpack_loop] in H; rewrite Hb in H;
        injection H as <-; apply EncodeToString_valid.
    + rewrite NewValue_DSlice in H by exact Hb.
      destruct (unpack_loop NewValue elems 0 (repeat None (List.length elems)))
        as [[values]| |] eqn:Hl; simpl in H; try discriminate.
      injection H as <-. apply valid_text_List.
      refine (@unpack_loop_valid_text _ NewValue elems 0 _ _ Hl _ _).
      * apply Forall_forall. intros pv Hin. apply repeat_spec in Hin. now subst.
      * apply list_all_Forall in IH. rewrite Forall_forall in IH.
        intros e y Hin. exact (IH e Hin y).
  - destruct d, o; discriminate.
Qed.

(** Every Value that [NewValue] returns holds valid UTF-8 only, in its
    strings and in the keys of its Structs, whatever the input: text that is
    not valid is never let through, and never repaired. *)
Theorem NewValue_valid_text (v : Dyn) (x : Value) :
  NewValue v = Ok x -> valid_text x = true.
Proof. apply NewValue_valid_text_all. Qed.

Lemma NewValue_valid_text_witness :
  NewValue (DMapOf [("k", DSliceOf [DString None "a"; DBytes [255]])])
  = Ok (NewStructValue (Some (mkStruct
          [("k", Some (NewListValue (Some (mkListValue
                   [Some (NewStringValue "a"); Some (NewStringValue "/w==")]))))])))
  /\
  valid_text (NewStructValue (Some (mkStruct
          [("k", Some (NewListValue (Some (mkListValue
                   [Some (NewStringValue "a"); Some (NewStringValue "/w==")]))))])))
  = true.
Proof.
  assert (H : NewValue (DMapOf [("k", DSliceOf [DString None "a"; DBytes [255]])])
              = Ok (NewStructValue (Some (mkStruct
                      [("k", Some (NewListValue (Some (mkListValue
                               [Some (NewStringValue "a");
                                Some (NewStringValue "/w==")]))))]))))
    by reflexivity.
  split; [exact H|].
  exact (NewValue_valid_text _ H).
Defined.


(** *** The panics of NewValue *)

Section PanicLoops.

Variable A : Type.
Variable encode : A -> Result Value.

Lemma NewStruct_loop_Panic (v : list (string * A)) :
  forall data p,
    NewStruct_loop encode v data = Panic p ->
    exists k a, In (k, a) v /\ encode a = Panic p.
Proof.
  induction v as [|[k0 a0] v IH]; intros data p H; simpl in H.
  - discriminate.
  - destruct (utf8.ValidString k0); simpl in H; [|discriminate].
    destruct (encode a0) as [x0| |] eqn:Hx0; simpl in H; try discriminate.
    + destruct (IH _ _ H) as (k & a & Hin & Ha). exists k, a. auto using in_cons.
    + injection H as <-. exists k0, a0. split; [now left|assumption].
Qed.

(** The assignments of the loop stay within the slice made for the results:
    the loop panics in [Field], or with the panic of an element. *)
Lemma unpack_loop_Panic (elems : list A) :
  forall (done : list (option Value)) (p : PanicValue),
    unpack_loop encode elems (List.length done)
                (done ++ repeat None (List.length elems)) = Panic p ->
    p = ValueError "reflect.Value.Field" reflect.Slice \/
    exists e, In e elems /\ encode e = Panic p.
Proof.
  induction elems as [|e elems IH]; intros done p H; simpl in H.
  - discriminate.
  - destruct (encode e) as [x0| |] eqn:Hx0.
    + rewrite slice_set_app in H.
      rewrite (snoc_app done (Some x0)), <- (length_snoc done (Some x0)) in H.
      destruct (IH _ _ H) as [->|(e' & Hin & He')]; [now left|].
      right. exists e'. auto using in_cons.
    + injection H as <-. now left.
    + injection H as <-. right. exists e. split; [now left|assumption].
Qed.

End PanicLoops.

Lemma NewStruct_encoder_panic (m : list (string * Dyn)) (p : PanicValue) :
  (forall k a, In (k, a) m -> NewValue a = Panic p -> encoder_panic p) ->
  convert_struct (NewStruct m) = Panic p -> encoder_panic p.
Proof.
  intros Hm H. apply convert_struct_Panic in H.
  destruct (NewStruct_loop_Panic NewValue m [] H) as (k & a & Hin & Ha).
  exact (Hm k a Hin Ha).
Qed.

Lemma NewValue_encoder_panic_all (v : Dyn) :
  forall p, NewValue v = Panic p -> encoder_panic p.
Proof.
  induction v as [|d b|d k n|d k f|d s|t|name flat IH|d K V entries IH
                  |d E elems IH|d o]; intros p H.
  - discriminate.
  - destruct d; simpl in H; [|discriminate].
    injection H as <-. left. eauto.
  - destruct d, k; simpl in H; try discriminate; injection H as <-; left; eauto.
  - destruct d, k; simpl in H; try discriminate; injection H as <-; left; eauto.
  - destruct d; simpl in H.
    + injection H as <-. left. eauto.
    + unfold type_assert in H. simpl in H.
      destruct (utf8.ValidString s); discriminate.
  - discriminate.
  - destruct flat as [cause|interMap]; [discriminate|].
    rewrite NewValue_DStruct, NewValue_DMapOf in H.
    inversion IH as [|? IHm]; subst.
    apply (NewStruct_encoder_panic interMap); [|assumption].
    intros k a Hin. exact (fields_all_values IHm _ _ Hin p).
  - destruct (NewValue_DMap_cases d K V entries) as (m & Hm & Hvalues).
    rewrite Hm in H. apply (NewStruct_encoder_panic m); [|assumption].
    intros k a Hin. destruct (Hvalues _ _ Hin) as (key & Hkey).
    exact (entries_all_values IH _ _ Hkey p).
  - destruct (type_is (DSlice d E elems) (TSlice (TInt KUint8))) eqn:Hb.
    + destruct d; cbn -[type_is unpack_loop] in H; rewrite Hb in H;
        discriminate.
    + rewrite NewValue_DSlice in H by exact Hb.
      destruct (unpack_loop NewValue elems 0 (repeat None (List.length elems)))
        as [l| |p'] eqn:Hl; simpl in H; try discriminate.
      injection H as <-.
      destruct (@unpack_loop_Panic _ NewValue elems [] p' Hl)
        as [->|(e & Hin & He)]; [now right|].
      apply list_all_Forall in IH. rewrite Forall_forall in IH.
      exact (IH e Hin p' He).
  - destruct d, o; discriminate.
Qed.

(** When [NewValue] panics, the panic is a failed type assertion or the call
    of [Field] on a slice, at any depth of the input: the assignments to the
    slices and maps it fills never panic. *)
Theorem NewValue_panics_only_two_ways (v : Dyn) (p : PanicValue) :
  NewValue v = Panic p -> encoder_panic p.
Proof. apply NewValue_encoder_panic_all. Qed.

Lemma NewValue_panics_only_two_ways_witness :
  NewValue (DMapOf [("k", DSliceOf [DNil; DBool (Some "main.Flag") true])])
  = Panic (TypeAssertionError "main.Flag" "bool") /\
  encoder_panic (TypeAssertionError "main.Flag" "bool").
Proof.
  assert (H : NewValue (DMapOf [("k", DSliceOf [DNil; DBool (Some "main.Flag") true])])
              = Panic (TypeAssertionError "main.Flag" "bool")) by reflexivity.
  split; [exact H|].
  exact (NewValue_panics_only_two_ways _ H).
Defined.

(** *** The shapes AsInterface returns *)

Lemma json_like_DMapOf (m : list (string * Dyn)) :
  Forall (fun e => json_like (snd e) = true) m -> json_like (DMapOf m) = true.
Proof.
  intros H. unfold DMapOf. cbn [json_like].
  apply forallb_forall. intros [k v] Hin.
  apply in_map_iff in Hin as ([k0 v0] & Heq & Hin).
  rewrite Forall_forall in H. specialize (H _ Hin). simpl in H.
  injection Heq as <- <-. exact H.
Qed.

Lemma json_like_DSliceOf (vs : list Dyn) :
  Forall (fun d => json_like d = true) vs -> json_like (DSliceOf vs) = true.
Proof.
  intros H. unfold DSliceOf. cbn [json_like].
  apply forallb_forall. now rewrite Forall_forall in H.
Qed.

Section ShapeLoops.

Variable rec : Value -> Result Dyn.

Lemma AsMap_loop_json_like (data : list (string * option Value)) :
  forall vs m,
    AsMap_loop rec data vs = Ok m ->
    Forall (fun e => json_like (snd e) = true) vs ->
    (forall k pv d, In (k, pv) data -> AsInterface_ptr rec pv = Ok d ->
                    json_like d = true) ->
    Forall (fun e => json_like (snd e) = true) m.
Proof.
  induction data as [|[k0 pv0] data IH]; intros vs m H Hvs Hdec; simpl in H.
  - now injection H as <-.
  - destruct (AsInterface_ptr rec pv0) as [d0| |] eqn:Hd0; simpl in H;
      try discriminate.
    apply (IH _ _ H).
    + apply Forall_forall. intros [k d] Hin.
      destruct (map_set_In _ _ _ _ _ Hin) as [Heq|Hin'].
      * injection Heq as -> ->. simpl. apply (Hdec k0 pv0); [now left|assumption].
      * rewrite Forall_forall in Hvs. exact (Hvs _ Hin').
    + intros k pv d Hin. apply (Hdec k pv). now right.
Qed.

Lemma AsSlice_loop_json_like (values : list (option Value)) :
  forall i vs ds,
    AsSlice_loop rec values i vs = Ok ds ->
    Forall (fun d => json_like d = true) vs ->
    (forall pv d, In pv values -> AsInterface_ptr rec pv = Ok d ->
                  json_like d = true) ->
    Forall (fun d => json_like d = true) ds.
Proof.
  induction values as [|pv0 values IH]; intros i vs ds H Hvs Hdec; simpl in H.
  - now injection H as <-.
  - destruct (AsInterface_ptr rec pv0) as [d0| |] eqn:Hd0; simpl in H;
      try discriminate.
    destruct (slice_set vs i d0) as [vs'|] eqn:Hset; [|discriminate].
    apply (IH _ _ _ H).
    + apply Forall_forall. intros d Hin.
      destruct (slice_set_In _ _ _ Hset _ Hin) as [->|Hin'].
      * apply (Hdec pv0); [now left|assumption].
      * rewrite Forall_forall in Hvs. exact (Hvs _ Hin').
    + intros pv d Hin. apply (Hdec pv). now right.
Qed.

End ShapeLoops.


Lemma struct_all_values (P : Value -> Prop) (data : list (string * option Value)) :
  list_all (prod_all (fun _ : string => unit) (option_all P)) data ->
  forall k v, In (k, Some v) data -> P v.
Proof.
  induction 1 as [|e He data _ IH]; intros k v Hin; simpl in Hin.
  - destruct Hin.
  - destruct Hin as [->|Hin]; [|eauto].
    inversion He as [? _ ? Hv]; subst. now inversion Hv.
Qed.

Lemma list_all_values (P : Value -> Prop) (values : list (option Value)) :
  list_all (option_all P) values ->
  forall v, In (Some v) values -> P v.
Proof.
  induction 1 as [|pv Hpv values _ IH]; intros v Hin; simpl in Hin.
  - destruct Hin.
  - destruct Hin as [->|Hin]; [|eauto]. now inversion Hpv.
Qed.

Lemma AsInterface_kind_json_like (x : Value) :
  forall d, AsInterface_kind x = Ok d -> json_like d = true.
Proof.
  induction x as [|w|w|w|w|w|w IH|w IH]; intros d H.
  - injection H as <-. reflexivity.
  - injection H as <-. reflexivity.
  - destruct w as [f|]; simpl in H; [|injection H as <-; reflexivity].
    destruct f as [sg|[|]| |sg m e]; simpl in H; injection H as <-; reflexivity.
  - destruct w; simpl in H; injection H as <-; reflexivity.
  - destruct w; simpl in H; injection H as <-; reflexivity.
  - destruct w; simpl in H; injection H as <-; reflexivity.
  - destruct w as [[[data]|]|]; cbn -[AsMap_loop] in H;
      try (injection H as <-; reflexivity).
    inversion IH as [? IH1|]; subst. inversion IH1 as [? IH2|]; subst.
    inversion IH2 as [? IH3]; subst.
    destruct (AsMap_loop AsInterface_kind data []) as [m| |] eqn:Hm;
      simpl in H; try discriminate.
    injection H as <-. apply json_like_DMapOf.
    refine (@AsMap_loop_json_like AsInterface_kind data [] m Hm (Forall_nil _) _).
    intros k [v|] d Hin Hd; simpl in Hd.
    + exact (struct_all_values IH3 _ _ Hin d Hd).
    + now injection Hd as <-.
  - destruct w as [[[values]|]|]; cbn -[AsSlice_loop] in H;
      try (injection H as <-; reflexivity).
    inversion IH as [? IH1|]; subst. inversion IH1 as [? IH2|]; subst.
    inversion IH2 as [? IH3]; subst.
    destruct (AsSlice_loop AsInterface_kind values 0
                           (repeat DNil (List.length values)))
      as [ds| |] eqn:Hds; simpl in H; try discriminate.
    injection H as <-. apply json_like_DSliceOf.
    refine (@AsSlice_loop_json_like AsInterface_kind values 0 _ ds Hds _ _).
    + apply Forall_forall. intros d Hin. apply repeat_spec in Hin. now subst.
    + intros [v|] d Hin Hd; simpl in Hd.
      * exact (list_all_values IH3 _ Hin d Hd).
      * now injection Hd as <-.
Qed.

(** What [AsInterface] returns has the shapes of JSON at every depth: nil,
    bool, float64, string, [time.Time], [map[string]interface{}] and
    [[]interface{}].  No integer, no value of a defined type and no byte
    slice comes out of a Value. *)
Theorem AsInterface_json_like (x : option Value) (d : Dyn) :
  AsInterface x = Ok d -> json_like d = true.
Proof. unfold AsInterface. apply AsInterface_kind_json_like. Qed.

Lemma AsInterface_json_like_witness :
  AsInterface (Some (NewListValue (Some (mkListValue
                 [Some (NewNumberValue (float64_of_int 7)); None]))))
  = Ok (DSliceOf [DFloat None KFloat64 (float64_of_int 7); DNil]) /\
  json_like (DSliceOf [DFloat None KFloat64 (float64_of_int 7); DNil]) = true.
Proof.
  assert (H : AsInterface (Some (NewListValue (Some (mkListValue
                 [Some (NewNumberValue (float64_of_int 7)); None]))))
              = Ok (DSliceOf [DFloat None KFloat64 (float64_of_int 7); DNil]))
    by reflexivity.
  split; [exact H|].
  exact (AsInterface_json_like _ H).
Defined.

(** *** Maps without repeated keys *)

Lemma map_set_fresh {A : Type} (m : list (string * A)) (k : string) (a : A) :
  ~ In k (keys m) -> map_set m k a = m ++ [(k, a)].
Proof.
  induction m as [|[k0 a0] m IH]; intros H; simpl in *; [reflexivity|].
  destruct (String.eqb_spec k0 k) as [->|Hne].
  - exfalso. apply H. now left.
  - rewrite IH; [reflexivity|]. intros Hin. apply H. now right.
Qed.

Lemma keys_map_set_known {A : Type} (m : list (string * A)) (k : string) (a : A) :
  In k (keys m) -> keys (map_set m k a) = keys m.
Proof.
  induction m as [|[k0 a0] m IH]; intros H; simpl in *; [destruct H|].
  destruct (String.eqb_spec k0 k) as [->|Hne]; [reflexivity|].
  simpl. rewrite IH; [reflexivity|]. destruct H as [H|H]; [contradiction|assumption].
Qed.

Lemma keys_app {A : Type} (m m' : list (string * A)) :
  keys (m ++ m') = keys m ++ keys m'.
Proof. unfold keys. apply map_app. Qed.

Lemma NoDup_keys_map_set {A : Type} (m : list (string * A)) (k : string) (a : A) :
  NoDup (keys m) -> NoDup (keys (map_set m k a)).
Proof.
  intros H. destruct (in_dec string_dec k (keys m)) as [Hin|Hnin].
  - now rewrite keys_map_set_known.
  - rewrite map_set_fresh, keys_app by assumption. simpl.
    apply NoDup_app; [assumption|repeat constructor; intros []|].
    intros x Hx [<-|[]]. contradiction.
Qed.


Lemma NoDup_keys_step {A B : Type} (data : list (string * A)) (k : string) (a : A)
      (rest : list (string * B)) :
  NoDup (keys data ++ k :: keys rest) ->
  ~ In k (keys data) /\ NoDup (keys (data ++ [(k, a)]) ++ keys rest).
Proof.
  intros H. split.
  - apply NoDup_remove_2 in H. intros Hin. apply H. apply in_or_app. now left.
  - rewrite keys_app. simpl. now rewrite <- app_assoc.
Qed.

Section NoDupLoops.

Variable A : Type.
Variable encode : A -> Result Value.

(** On a map without repeated keys the loop of [NewStruct] appends: the
    Struct lists the encodings in the order of the input. *)
Lemma NewStruct_loop_NoDup (v : list (string * A)) :
  forall (out data : list (string * option Value)),
    Forall2 (fun e o => fst o = fst e /\ utf8.ValidString (fst e) = true /\
                        exists x, encode (snd e) = Ok x /\ snd o = Some x) v out ->
    NoDup (keys data ++ keys v) ->
    NewStruct_loop encode v data = Ok (mkStruct (data ++ out)).
Proof.
  induction v as [|[k a] v IH]; intros out data H Hnd; inversion H; subst;
    simpl.
  - now rewrite app_nil_r.
  - destruct y as [k' o]. simpl in *.
    destruct H2 as (-> & Hk & x & Hx & ->). rewrite Hk, Hx. simpl.
    destruct (NoDup_keys_step data k (Some x) v Hnd) as (Hfresh & Hnd').
    rewrite map_set_fresh by assumption.
    rewrite (IH l' (data ++ [(k, Some x)]) H4 Hnd').
    now rewrite <- app_assoc.
Qed.

End NoDupLoops.

Section NoDupDecoder.

Variable rec : Value -> Result Dyn.

Lemma AsMap_loop_NoDup (data : list (string * option Value)) :
  forall (out vs : list (string * Dyn)),
    Forall2 (fun e o => fst o = fst e /\
                        AsInterface_ptr rec (snd e) = Ok (snd o)) data out ->
    NoDup (keys vs ++ keys data) ->
    AsMap_loop rec data vs = Ok (vs ++ out).
Proof.
  induction data as [|[k pv] data IH]; intros out vs H Hnd; inversion H; subst;
    simpl.
  - now rewrite app_nil_r.
  - destruct y as [k' d]. simpl in *.
    destruct H2 as (-> & Hd). rewrite Hd. simpl.
    destruct (NoDup_keys_step vs k d data Hnd) as (Hfresh & Hnd').
    rewrite map_set_fresh by assumption.
    rewrite (IH l' (vs ++ [(k, d)]) H4 Hnd').
    now rewrite <- app_assoc.
Qed.

(** With or without repeated keys in the Struct, the map [AsMap] returns has
    none, and each of its entries is the decoding of an entry of the
    Struct. *)
Lemma AsMap_loop_entries (data : list (string * option Value)) :
  forall vs m,
    AsMap_loop rec data vs = Ok m ->
    NoDup (keys vs) ->
    NoDup (keys m) /\
    forall k d, In (k, d) m ->
                In (k, d) vs \/
                exists pv, In (k, pv) data /\ AsInterface_ptr rec pv = Ok d.
Proof.
  induction data as [|[k0 pv0] data IH]; intros vs m H Hnd; simpl in H.
  - injection H as <-. split; [assumption|]. intros k d Hin. now left.
  - destruct (AsInterface_ptr rec pv0) as [d0| |] eqn:Hd0; simpl in H;
      try discriminate.
    destruct (IH _ _ H (NoDup_keys_map_set vs k0 d0 Hnd)) as (Hm & Hin).
    split; [assumption|].
    intros k d Hkd. destruct (Hin k d Hkd) as [Hset|(pv & Hpv & Hdec)].
    + destruct (map_set_In _ _ _ _ _ Hset) as [Heq|Hvs]; [|now left].
      injection Heq as -> ->. right. exists pv0. split; [now left|assumption].
    + right. exists pv. split; [now right|assumption].
Qed.

End NoDupDecoder.

Lemma keys_Forall2 {A B : Type} (R : string * A -> string * B -> Prop)
      (m : list (string * A)) (out : list (string * B)) :
  Forall2 R m out ->
  (forall e o, R e o -> fst o = fst e) ->
  keys out = keys m.
Proof.
  intros H HR. induction H as [|e o m out Heo _ IH]; simpl; [reflexivity|].
  now rewrite (HR _ _ Heo), IH.
Qed.

(** *** Maps through NewStruct and AsMap *)

(** A map with valid keys whose values encode goes through [NewStruct] and
    [AsMap] entry by entry: the map that comes back has the same keys, and
    under each key the decoding of the encoding of the value. *)
Theorem struct_round_trip (m : list (string * Dyn)) :
  NoDup (keys m) ->
  Forall (fun e => utf8.ValidString (fst e) = true /\
                   exists x, NewValue (snd e) = Ok x) m ->
  exists (s : Struct) (dm : list (string * Dyn)),
    NewStruct m = Ok s /\
    AsMap (Some s) = Ok dm /\
    Forall2 (fun e de => fst de = fst e /\
                         exists x, NewValue (snd e) = Ok x /\
                                   AsInterface (Some x) = Ok (snd de)) m dm.
Proof.
  intros Hnd Hall.
  destruct (@Forall_exists_Forall2 _ _
              (fun (e : string * Dyn) (o : string * option Value) =>
                 fst o = fst e /\ utf8.ValidString (fst e) = true /\
                 exists x, NewValue (snd e) = Ok x /\ snd o = Some x) m)
    as (out & Hout).
  { eapply Forall_impl; [|exact Hall]. intros [k v] (Hk & x & Hx).
    exists (k, Some x). simpl. eauto. }
  destruct (@Forall_exists_Forall2 _ _
              (fun (o : string * option Value) (de : string * Dyn) =>
                 fst de = fst o /\
                 AsInterface_ptr AsInterface_kind (snd o) = Ok (snd de)) out)
    as (dm & Hdm).
  { apply Forall_forall. intros [k pv] _.
    destruct (AsInterface_total pv) as (d & Hd).
    exists (k, d). simpl. now rewrite AsInterface_ptr_kind. }
  exists (mkStruct out), dm.
  assert (Hkeys : keys out = keys m).
  { apply (keys_Forall2 Hout). now intros e o (H & _). }
  split; [|split].
  - unfold NewStruct.
    rewrite (@NewStruct_loop_NoDup _ NewValue m out [] Hout); [reflexivity|].
    exact Hnd.
  - unfold AsMap, AsMap_with. cbn [Data].
    rewrite (@AsMap_loop_NoDup AsInterface_kind out dm [] Hdm); [reflexivity|].
    simpl. now rewrite Hkeys.
  - clear Hnd Hall Hkeys. revert dm Hdm.
    induction Hout as [|e o m out Heo _ IH]; intros dm Hdm; inversion Hdm; subst;
      constructor.
    + destruct Heo as (Hfst & _ & x & Hx & Hsnd). destruct H1 as (Hfst' & Hdec).
      split; [congruence|]. exists x. split; [assumption|].
      rewrite Hsnd in Hdec. exact Hdec.
    + now apply IH.
Qed.

Lemma struct_round_trip_witness :
  NoDup (keys [("a", DInt None KInt 1); ("b", DNil)]) /\
  exists (s : Struct) (dm : list (string * Dyn)),
    NewStruct [("a", DInt None KInt 1); ("b", DNil)] = Ok s /\
    AsMap (Some s) = Ok dm /\
    Forall2 (fun e de => fst de = fst e /\
                         exists x, NewValue (snd e) = Ok x /\
                                   AsInterface (Some x) = Ok (snd de))
            [("a", DInt None KInt 1); ("b", DNil)] dm.
Proof.
  assert (Hnd : NoDup (keys [("a", DInt None KInt 1); ("b", DNil)])).
  { repeat constructor; simpl; intuition discriminate. }
  split; [exact Hnd|].
  apply (@struct_round_trip [("a", DInt None KInt 1); ("b", DNil)] Hnd).
  repeat constructor; eexists; reflexivity.
Defined.


(** *** The two branches of the Map case *)

Lemma NewValue_DMap_string (d : option string) (K V : GoType)
      (entries : list (Dyn * Dyn)) :
  type_is (DMap d K V entries) map_string_interface = true ->
  NewValue (DMap d K V entries) = convert_struct (NewStruct (as_string_map entries)).
Proof.
  intros Hty. unfold NewStruct.
  destruct d;
    cbn -[NewStruct_loop type_is as_string_map encode_entries MapRange_loop];
    rewrite Hty;
    now rewrite encode_entries_map_values, as_string_map_map_values,
                NewStruct_loop_map_values.
Qed.

Lemma Value_String_string (K : GoType) (k : Dyn) :
  Kind K = reflect.String -> Value_String K k = string_of k.
Proof. intros H. unfold Value_String. now rewrite H. Qed.

Lemma MapRange_loop_NoDup (A : Type) (K : GoType) (entries : list (Dyn * A)) :
  Kind K = reflect.String ->
  forall init : list (string * A),
    NoDup (keys init ++ keys (as_string_map entries)) ->
    fold_left
      (fun reflected e =>
         match e with (k, mv) => map_set reflected (Value_String K k) mv end)
      entries init
    = init ++ as_string_map entries.
Proof.
  intros HK. induction entries as [|[k mv] entries IH]; intros init Hnd; simpl.
  - now rewrite app_nil_r.
  - simpl in Hnd. rewrite Value_String_string by assumption.
    destruct (NoDup_keys_step init (string_of k) mv (as_string_map entries) Hnd)
      as (Hfresh & Hnd').
    rewrite map_set_fresh by assumption.
    rewrite IH by assumption. now rewrite <- app_assoc.
Qed.

(** A map whose key type is of kind String, of whatever map type, is encoded
    like the [map[string]interface{}] with the same entries: the loop over
    [MapRange] rebuilds the map key by key. *)
Theorem string_keyed_maps_agree
        (d : option string) (K V : GoType) (entries : list (Dyn * Dyn)) :
  Kind K = reflect.String ->
  NoDup (keys (as_string_map entries)) ->
  NewValue (DMap d K V entries) = NewValue (DMapOf (as_string_map entries)).
Proof.
  intros HK Hnd. rewrite NewValue_DMapOf.
  destruct (type_is (DMap d K V entries) map_string_interface) eqn:Hty.
  - now apply NewValue_DMap_string.
  - rewrite NewValue_DMap by assumption. unfold MapRange_loop.
    now rewrite (@MapRange_loop_NoDup _ K entries HK []).
Qed.

Lemma string_keyed_maps_agree_witness :
  NewValue (DMap (Some "main.Labels") (TDefined "main.Key" TString) TString
                 [(DString (Some "main.Key") "a", DString None "x");
                  (DString (Some "main.Key") "b", DString None "y")])
  = NewValue (DMapOf [("a", DString None "x"); ("b", DString None "y")]).
Proof.
  apply (@string_keyed_maps_agree
           (Some "main.Labels") (TDefined "main.Key" TString) TString
           [(DString (Some "main.Key") "a", DString None "x");
            (DString (Some "main.Key") "b", DString None "y")]).
  - reflexivity.
  - repeat constructor; simpl; intuition discriminate.
Defined.

(** *** Decoding, encoding again and decoding again *)

Lemma Forall2_swap {A B : Type} (R : A -> B -> Prop) (l : list A) (l' : list B) :
  Forall2 R l l' -> Forall2 (fun b a => R a b) l' l.
Proof. induction 1; constructor; assumption. Qed.

Lemma AsTime_New_AsTime (ts : option Timestamp) :
  timestamppb.AsTime (timestamppb.New (timestamppb.AsTime ts))
  = timestamppb.AsTime ts.
Proof.
  unfold timestamppb.AsTime, timestamppb.New, timestamppb.Unix_UTC.
  cbn -[Z.div Z.modulo].
  rewrite Z.mod_mod by lia.
  rewrite (Z.div_small (_ mod _)) by (apply Z.mod_pos_bound; lia).
  now rewrite Z.add_0_r.
Qed.

Lemma AsSlice_loop_Forall (rec : Value -> Result Dyn) (Q : Dyn -> Prop)
      (values : list (option Value)) :
  forall i vs ds,
    AsSlice_loop rec values i vs = Ok ds ->
    Forall Q vs ->
    (forall pv d, In pv values -> AsInterface_ptr rec pv = Ok d -> Q d) ->
    Forall Q ds.
Proof.
  induction values as [|pv0 values IH]; intros i vs ds H Hvs Hdec; simpl in H.
  - now injection H as <-.
  - destruct (AsInterface_ptr rec pv0) as [d0| |] eqn:Hd0; simpl in H;
      try discriminate.
    destruct (slice_set vs i d0) as [vs'|] eqn:Hset; [|discriminate].
    apply (IH _ _ _ H).
    + apply Forall_forall. intros d Hin.
      destruct (slice_set_In _ _ _ Hset _ Hin) as [->|Hin'].
      * apply (Hdec pv0); [now left|assumption].
      * rewrite Forall_forall in Hvs. exact (Hvs _ Hin').
    + intros pv d Hin. apply (Hdec pv). now right.
Qed.

Lemma slice_reencode (ds : list Dyn) :
  Forall (fun d => exists x, NewValue d = Ok x /\ AsInterface (Some x) = Ok d) ds ->
  exists x, NewValue (DSliceOf ds) = Ok x /\ AsInterface (Some x) = Ok (DSliceOf ds).
Proof.
  intros Hall.
  destruct (@Forall_exists_Forall2 _ _
              (fun (d : Dyn) (o : option Value) =>
                 exists x, NewValue d = Ok x /\ o = Some x /\
                           AsInterface (Some x) = Ok d) ds) as (xs & Hxs).
  { eapply Forall_impl; [|exact Hall]. intros d (x & Hx & Hd).
    exists (Some x), x. auto. }
  exists (NewListValue (Some (mkListValue xs))). split.
  - unfold DSliceOf. rewrite NewValue_DSlice by reflexivity.
    rewrite (@unpack_loop_start _ NewValue ds xs); [reflexivity|].
    eapply Forall2_impl; [|exact Hxs]. intros d o (x & Hx & Ho & _). eauto.
  - rewrite AsInterface_ListValue. unfold AsSlice, AsSlice_with. cbn [Values].
    rewrite (@AsSlice_loop_start AsInterface_kind xs ds); [reflexivity|].
    apply Forall2_swap. eapply Forall2_impl; [|exact Hxs].
    intros d o (x & _ & -> & Hd). exact Hd.
Qed.

Lemma map_reencode (m : list (string * Dyn)) :
  NoDup (keys m) ->
  Forall (fun e => utf8.ValidString (fst e) = true /\
                   exists x, NewValue (snd e) = Ok x /\
                             AsInterface (Some x) = Ok (snd e)) m ->
  exists x, NewValue (DMapOf m) = Ok x /\ AsInterface (Some x) = Ok (DMapOf m).
Proof.
  intros Hnd Hall.
  destruct (@Forall_exists_Forall2 _ _
              (fun (e : string * Dyn) (o : string * option Value) =>
                 fst o = fst e /\ utf8.ValidString (fst e) = true /\
                 exists x, NewValue (snd e) = Ok x /\ snd o = Some x /\
                           AsInterface (Some x) = Ok (snd e)) m)
    as (out & Hout).
  { eapply Forall_impl; [|exact Hall]. intros [k v] (Hk & x & Hx & Hd).
    exists (k, Some x). simpl. eauto 6. }
  assert (Hkeys : keys out = keys m).
  { apply (keys_Forall2 Hout). now intros e o (H & _). }
  exists (NewStructValue (Some (mkStruct out))). split.
  - rewrite NewValue_DMapOf. unfold NewStruct.
    rewrite (@NewStruct_loop_NoDup _ NewValue m out []); [reflexivity| |exact Hnd].
    eapply Forall2_impl; [|exact Hout].
    intros e o (H1 & H2 & x & Hx & Ho & _). eauto 6.
  - rewrite AsInterface_StructValue. unfold AsMap, AsMap_with. cbn [Data].
    rewrite (@AsMap_loop_NoDup AsInterface_kind out m []); [reflexivity| |].
    + apply Forall2_swap. eapply Forall2_impl; [|exact Hout].
      intros [k v] [k' o] (H1 & _ & x & _ & Ho & Hd). simpl in *.
      subst. split; [reflexivity|]. exact Hd.
    + simpl. now rewrite Hkeys.
Qed.

Lemma reencode_stable_all (x : Value) :
  valid_text x = true ->
  forall d, AsInterface_kind x = Ok d ->
            exists x', NewValue d = Ok x' /\ AsInterface (Some x') = Ok d.
Proof.
  induction x as [|w|w|w|w|w|w IH|w IH]; intros Hvalid d H.
  - injection H as <-. exists NewNullValue. split; reflexivity.
  - injection H as <-. exists NewNullValue. split; reflexivity.
  - destruct w as [f|]; simpl in H;
      [|injection H as <-; exists NewNullValue; split; reflexivity].
    destruct f as [sg|[|]| |sg m e]; simpl in H; injection H as <-;
      eexists; split; reflexivity.
  - destruct w as [s|]; simpl in H;
      [|injection H as <-; exists NewNullValue; split; reflexivity].
    injection H as <-. simpl in Hvalid.
    exists (NewStringValue s). split; [|reflexivity].
    simpl. unfold type_assert. simpl. now rewrite Hvalid.
  - destruct w as [ts|]; simpl in H;
      [|injection H as <-; exists NewNullValue; split; reflexivity].
    injection H as <-. exists (NewTimestampValue (timestamppb.AsTime ts)).
    split; [reflexivity|].
    unfold AsInterface, NewTimestampValue. cbn [GetKind AsInterface_kind nonnil].
    now rewrite AsTime_New_AsTime.
  - destruct w as [b|]; simpl in H;
      [|injection H as <-; exists NewNullValue; split; reflexivity].
    injection H as <-. exists (NewBoolValue b). split; reflexivity.
  - destruct w as [[[data]|]|]; cbn -[AsMap_loop] in H.
    + inversion IH as [? IH1|]; subst. inversion IH1 as [? IH2|]; subst.
      inversion IH2 as [? IH3]; subst.
      destruct (AsMap_loop AsInterface_kind data []) as [m| |] eqn:Hm;
        simpl in H; try discriminate.
      injection H as <-.
      apply (valid_text_Struct data) in Hvalid. rewrite Forall_forall in Hvalid.
      destruct (@AsMap_loop_entries AsInterface_kind data [] m Hm (NoDup_nil _))
        as (Hnd & Hentries).
      apply map_reencode; [exact Hnd|].
      apply Forall_forall. intros [k dd] Hin. simpl.
      destruct (Hentries k dd Hin) as [[]|(pv & Hpv & Hdec)].
      destruct (Hvalid _ Hpv) as (Hk & Hv). simpl in Hk, Hv.
      split; [exact Hk|].
      destruct pv as [v|]; simpl in Hdec.
      * exact (struct_all_values IH3 _ _ Hpv (Hv v eq_refl) dd Hdec).
      * injection Hdec as <-. exists NewNullValue. split; reflexivity.
    + injection H as <-. exists (NewStructValue (Some (mkStruct []))).
      split; reflexivity.
    + injection H as <-. exists NewNullValue. split; reflexivity.
  - destruct w as [[[values]|]|]; cbn -[AsSlice_loop] in H.
    + inversion IH as [? IH1|]; subst. inversion IH1 as [? IH2|]; subst.
      inversion IH2 as [? IH3]; subst.
      destruct (AsSlice_loop AsInterface_kind values 0
                             (repeat DNil (List.length values)))
        as [ds| |] eqn:Hds; simpl in H; try discriminate.
      injection H as <-.
      apply (valid_text_List values) in Hvalid. rewrite Forall_forall in Hvalid.
      apply slice_reencode.
      refine (@AsSlice_loop_Forall AsInterface_kind _ values 0 _ ds Hds _ _).
      * apply Forall_forall. intros dd Hin. apply repeat_spec in Hin. subst.
        exists NewNullValue. split; reflexivity.
      * intros [v|] dd Hin Hdec; simpl in Hdec.
        -- exact (list_all_values IH3 _ Hin (Hvalid _ Hin v eq_refl) dd Hdec).
        -- injection Hdec as <-. exists NewNullValue. split; reflexivity.
    + injection H as <-. exists (NewListValue (Some (mkListValue []))).
      split; reflexivity.
    + injection H as <-. exists NewNullValue. split; reflexivity.
Qed.


(** A Value whose strings and keys are valid UTF-8, such as one received and
    checked, decodes to a dynamic value that [NewValue] encodes without error
    or panic, and whose encoding decodes to that same dynamic value. *)
Theorem decoded_value_is_stable (x : option Value) (d : Dyn) :
  valid_text (GetKind x) = true ->
  AsInterface x = Ok d ->
  exists x', NewValue d = Ok x' /\ AsInterface (Some x') = Ok d.
Proof.
  unfold AsInterface at 1. intros Hvalid Hd.
  eapply reencode_stable_all; eassumption.
Qed.

Lemma decoded_value_is_stable_witness :
  valid_text (GetKind (Some (NewNumberValue S754_nan))) = true /\
  AsInterface (Some (NewNumberValue S754_nan)) = Ok (DString None "NaN") /\
  exists x', NewValue (DString None "NaN") = Ok x' /\
             AsInterface (Some x') = Ok (DString None "NaN").
Proof.
  split; [reflexivity|]. split; [reflexivity|].
  exact (@decoded_value_is_stable (Some (NewNumberValue S754_nan))
                                  (DString None "NaN") eq_refl eq_refl).
Defined.

(** Encoding and decoding is idempotent: the dynamic value that comes back
    from a round trip is encoded without error or panic and comes back from
    a second round trip as it is. *)
Theorem round_trip_idempotent (v : Dyn) (x : Value) (d : Dyn) :
  NewValue v = Ok x ->
  AsInterface (Some x) = Ok d ->
  exists x', NewValue d = Ok x' /\ AsInterface (Some x') = Ok d.
Proof.
  intros Hx Hd.
  apply (@reencode_stable_all x); [|exact Hd].
  eapply NewValue_valid_text_all; eassumption.
Qed.

Lemma round_trip_idempotent_witness :
  NewValue (DInt None KInt 1) = Ok (NewNumberValue (float64_of_int 1)) /\
  AsInterface (Some (NewNumberValue (float64_of_int 1)))
  = Ok (DFloat None KFloat64 (float64_of_int 1)) /\
  exists x', NewValue (DFloat None KFloat64 (float64_of_int 1)) = Ok x' /\
             AsInterface (Some x') = Ok (DFloat None KFloat64 (float64_of_int 1)).
Proof.
  split; [reflexivity|]. split; [reflexivity|].
  exact (@round_trip_idempotent (DInt None KInt 1)
                                (NewNumberValue (float64_of_int 1))
                                (DFloat None KFloat64 (float64_of_int 1))
                                eq_refl eq_refl).
Defined.

(** *** The errors of NewValue *)

Section ErrorLoops.

Variable A : Type.
Variable encode : A -> Result Value.

Lemma NewStruct_loop_Err (v : list (string * A)) :
  forall data err,
    NewStruct_loop encode v data = Err err ->
    (exists k, err = ErrInvalidUTF8 k /\ utf8.ValidString k = false) \/
    exists k a, In (k, a) v /\ encode a = Err err.
Proof.
  induction v as [|[k0 a0] v IH]; intros data err H; simpl in H.
  - discriminate.
  - destruct (utf8.ValidString k0) eqn:Hk0; simpl in H.
    + destruct (encode a0) as [x0| |] eqn:Hx0; simpl in H; try discriminate.
      * destruct (IH _ _ H) as [Hl|(k & a & Hin & Ha)]; [now left|].
        right. exists k, a. auto using in_cons.
      * injection H as <-. right. exists k0, a0. split; [now left|assumption].
    + injection H as <-. left. eauto.
Qed.

End ErrorLoops.

Lemma NewStruct_sound_error (m : list (string * Dyn)) (err : Error) :
  (forall k a e, In (k, a) m -> NewValue a = Err e -> sound_error e) ->
  convert_struct (NewStruct m) = Err err -> sound_error err.
Proof.
  intros Hm H.
  destruct (NewStruct m) as [s|e|p] eqn:Hs; simpl in H; try discriminate.
  injection H as <-. unfold NewStruct in Hs.
  destruct (NewStruct_loop_Err NewValue m [] Hs)
    as [(k & -> & Hk)|(k & a & Hin & Ha)].
  - intros s Hroot. simpl in Hroot. now injection Hroot as <-.
  - exact (Hm k a e Hin Ha).
Qed.

Lemma NewValue_sound_error_all (v : Dyn) :
  forall err, NewValue v = Err err -> sound_error err.
Proof.
  induction v as [|d b|d k n|d k f|d s|t|name flat IH|d K V entries IH
                  |d E elems IH|d o]; intros err H.
  - discriminate.
  - destruct d; discriminate.
  - destruct d, k; simpl in H; try discriminate; injection H as <-;
      intros str Hstr; discriminate.
  - destruct d, k; discriminate.
  - destruct d; simpl in H; [discriminate|].
    unfold type_assert in H. simpl in H.
    destruct (utf8.ValidString s) eqn:Hs; simpl in H; [discriminate|].
    injection H as <-. intros s' Hroot. simpl in Hroot. now injection Hroot as <-.
  - discriminate.
  - destruct flat as [cause|interMap].
    + injection H as <-. intros str Hstr. discriminate.
    + rewrite NewValue_DStruct, NewValue_DMapOf in H.
      inversion IH as [|? IHm]; subst.
      apply (NewStruct_sound_error interMap); [|assumption].
      intros k a e Hin. exact (fields_all_values IHm _ _ Hin e).
  - destruct (NewValue_DMap_cases d K V entries) as (m & Hm & Hvalues).
    rewrite Hm in H. apply (NewStruct_sound_error m); [|assumption].
    intros k a e Hin. destruct (Hvalues _ _ Hin) as (key & Hkey).
    exact (entries_all_values IH _ _ Hkey e).
  - now elim (@slice_never_errs d E elems err).
  - destruct d, o; simpl in H; injection H as <-; intros str Hstr;
      discriminate.
Qed.

(** An error of [NewValue] that is an invalid-encoding error, or wraps one
    at any depth, carries a string that is indeed not valid UTF-8: the
    string itself, or the key of a map, that was refused. *)
Theorem invalid_encoding_error_is_sound (v : Dyn) (err : Error) (s : string) :
  NewValue v = Err err ->
  root_cause err = ErrInvalidUTF8 s ->
  utf8.ValidString s = false.
Proof.
  intros H Hroot. now apply (@NewValue_sound_error_all v err H).
Qed.

Lemma invalid_encoding_error_is_sound_witness :
  NewValue (DMapOf [("a", DMapOf [(bad_utf8, DNil)])])
  = Err (ErrConvertStruct (ErrConvertStruct (ErrInvalidUTF8 bad_utf8))) /\
  utf8.ValidString bad_utf8 = false.
Proof.
  assert (H : NewValue (DMapOf [("a", DMapOf [(bad_utf8, DNil)])])
              = Err (ErrConvertStruct (ErrConvertStruct (ErrInvalidUTF8 bad_utf8))))
    by reflexivity.
  split; [exact H|].
  exact (@invalid_encoding_error_is_sound _ _ bad_utf8 H eq_refl).
Defined.


(** *** Keys that are not valid UTF-8, at any depth *)

Lemma as_string_map_DMapOf (m : list (string * Dyn)) :
  as_string_map
    (List.map (fun kv => match kv with (k, v) => (DString None k, v) end) m)
  = m.
Proof.
  unfold as_string_map. rewrite map_map.
  rewrite <- (map_id m) at 2. apply map_ext. now intros [k v].
Qed.

Lemma handed_DMapOf (m : list (string * Dyn)) :
  handed_to_NewStruct (DMapOf m) = Some m.
Proof.
  unfold DMapOf, handed_to_NewStruct, type_is. simpl GoType_eq_dec. cbv iota.
  now rewrite as_string_map_DMapOf.
Qed.

Lemma handed_string_keyed (d : option string) (K V : GoType)
      (entries : list (Dyn * Dyn)) :
  Kind K = reflect.String ->
  NoDup (keys (as_string_map entries)) ->
  handed_to_NewStruct (DMap d K V entries) = Some (as_string_map entries).
Proof.
  intros HK Hnd. unfold handed_to_NewStruct.
  destruct (type_is (DMap d K V entries) map_string_interface); [reflexivity|].
  unfold MapRange_loop.
  now rewrite (@MapRange_loop_NoDup _ K entries HK []).
Qed.

(** [NewValue] on a map or a struct is [NewStruct] on the map handed to it,
    with the error wrapped. *)
Lemma NewValue_handed (v : Dyn) (m : list (string * Dyn)) :
  handed_to_NewStruct v = Some m ->
  NewValue v = convert_struct (NewStruct m).
Proof.
  destruct v as [|d b|d k n|d k f|d s|t|name [cause|interMap]|d K V entries
                 |d E elems|d o]; intros H; cbn [handed_to_NewStruct] in H;
    try discriminate.
  - injection H as <-. now rewrite NewValue_DStruct, NewValue_DMapOf.
  - injection H as <-.
    destruct (type_is (DMap d K V entries) map_string_interface) eqn:Hty.
    + now apply NewValue_DMap_string.
    + now apply NewValue_DMap.
Qed.

Lemma bad_key_inside_not_Ok (v : Dyn) :
  bad_key_inside v -> forall y, NewValue v <> Ok y.
Proof.
  induction 1 as [v m k x Hm Hin Hk|v m k x Hm Hin _ IH|d E elems x Hb Hin _ IH].
  - rewrite (NewValue_handed _ Hm). apply convert_struct_not_Ok.
    intros s. unfold NewStruct.
    now apply NewStruct_loop_bad_key with (k := k) (a := x).
  - rewrite (NewValue_handed _ Hm). apply convert_struct_not_Ok.
    intros s. unfold NewStruct.
    now apply NewStruct_loop_bad_value with (k := k) (a := x).
  - rewrite NewValue_DSlice by assumption.
    destruct (@unpack_loop_failure _ NewValue elems 0
                (repeat None (List.length elems))) as (p & Hp); [eauto|].
    rewrite Hp. discriminate.
Qed.

Lemma root_cause_wrapped (n : nat) (k : string) :
  root_cause (wrapped n (ErrInvalidUTF8 k)) = ErrInvalidUTF8 k.
Proof. induction n as [|n IH]; simpl; [reflexivity|exact IH]. Qed.

Lemma NewStruct_first_error (pre : list (string * Dyn)) (k : string) (x : Dyn)
      (post : list (string * Dyn)) (err : Error) :
  entries_encode pre ->
  utf8.ValidString k = true ->
  NewValue x = Err err ->
  NewStruct (pre ++ (k, x) :: post) = Err err.
Proof.
  intros Hpre Hk Hx. unfold NewStruct.
  rewrite (@NewStruct_loop_first_failure _ NewValue pre k x post [] Hpre Hk).
  - now rewrite Hx.
  - intros y Hy. congruence.
Qed.

Lemma bad_key_first_error (v : Dyn) (k : string) (n : nat) :
  bad_key_first v k n -> NewValue v = Err (wrapped n (ErrInvalidUTF8 k)).
Proof.
  induction 1 as [v pre k x post Hm Hpre Hk|v pre k0 x post k n Hm Hpre Hk0 _ IH].
  - rewrite (NewValue_handed _ Hm). unfold NewStruct.
    now rewrite (@NewStruct_loop_first_bad_key _ NewValue pre k x post [] Hpre Hk).
  - rewrite (NewValue_handed _ Hm).
    now rewrite (@NewStruct_first_error pre k0 x post _ Hpre Hk0 IH).
Qed.

(** Below a map whose keys are not strings, an entry counts only if it is
    the one left under the key the keys are turned into: here the map with
    the bad key is overwritten by the entry iterated after it, and the
    encoding succeeds. *)
Example bad_key_overwritten_below_int_keys :
  NewValue (DMap None (TInt KInt) TInterface
                 [(DInt None KInt 1, DMapOf [(bad_utf8, DNil)]);
                  (DInt None KInt 2, DNil)])
  = Ok (NewStructValue (Some (mkStruct [("<int Value>", Some NewNullValue)]))).
Proof. reflexivity. Qed.

(** C5, amended: encoding a string that is not valid UTF-8 fails with the
    invalid-encoding error that carries the string.  A value that holds a
    key that is not valid UTF-8 in a map handed to [NewStruct], however
    deeply below maps of any type, structs and slices other than byte slices,
    is never encoded to a Value.  When at every level of maps and structs on
    the way to the key the entries iterated before have valid keys and
    values that encode, [NewValue] fails with the invalid-encoding error that
    carries the key, wrapped once for every level, and [NewStruct] on the map
    with the error as it is; an entry iterated earlier whose value fails
    returns its own error first.  The map handed to [NewStruct] is the map
    itself for a [map[string]interface{}] and for any other map with keys of
    kind String, and the map of its fields for a struct. *)
Theorem invalid_utf8_rejected :
  (forall s : string,
      utf8.ValidString s = false ->
      NewValue (DString None s) = Err (ErrInvalidUTF8 s)) /\
  (forall v : Dyn, bad_key_inside v -> forall y, NewValue v <> Ok y) /\
  (forall (v : Dyn) (k : string) (n : nat),
      bad_key_first v k n ->
      NewValue v = Err (wrapped n (ErrInvalidUTF8 k)) /\
      root_cause (wrapped n (ErrInvalidUTF8 k)) = ErrInvalidUTF8 k) /\
  (forall (pre : list (string * Dyn)) (k : string) (x : Dyn)
          (post : list (string * Dyn)),
      entries_encode pre ->
      utf8.ValidString k = false ->
      NewStruct (pre ++ (k, x) :: post) = Err (ErrInvalidUTF8 k) /\
      NewValue (DMapOf (pre ++ (k, x) :: post))
      = Err (ErrConvertStruct (ErrInvalidUTF8 k))) /\
  (forall (pre : list (string * Dyn)) (k : string) (x : Dyn)
          (post : list (string * Dyn)) (err : Error),
      entries_encode pre ->
      utf8.ValidString k = true ->
      NewValue x = Err err ->
      NewStruct (pre ++ (k, x) :: post) = Err err /\
      NewValue (DMapOf (pre ++ (k, x) :: post)) = Err (ErrConvertStruct err)) /\
  (forall (v : Dyn) (m : list (string * Dyn)),
      handed_to_NewStruct v = Some m ->
      NewValue v = convert_struct (NewStruct m)) /\
  (forall m : list (string * Dyn), handed_to_NewStruct (DMapOf m) = Some m) /\
  (forall (d : option string) (K V : GoType) (entries : list (Dyn * Dyn)),
      Kind K = reflect.String ->
      NoDup (keys (as_string_map entries)) ->
      handed_to_NewStruct (DMap d K V entries) = Some (as_string_map entries)) /\
  (forall (name : string) (interMap : list (string * Dyn)),
      handed_to_NewStruct (DStruct name (inr interMap)) = Some interMap).
Proof.
  split; [|split; [|split; [|split; [|split; [|split; [|split; [|split]]]]]]].
  - intros s Hs. simpl. unfold type_assert. simpl. now rewrite Hs.
  - exact bad_key_inside_not_Ok.
  - intros v k n H. split; [now apply bad_key_first_error|].
    apply root_cause_wrapped.
  - intros pre k x post Hpre Hk.
    assert (H : NewStruct (pre ++ (k, x) :: post) = Err (ErrInvalidUTF8 k)).
    { unfold NewStruct. now apply NewStruct_loop_first_bad_key. }
    split; [exact H|].
    now rewrite NewValue_DMapOf, H.
  - intros pre k x post err Hpre Hk Hx.
    assert (H : NewStruct (pre ++ (k, x) :: post) = Err err)
      by now apply NewStruct_first_error.
    split; [exact H|].
    now rewrite NewValue_DMapOf, H.
  - exact NewValue_handed.
  - exact handed_DMapOf.
  - exact handed_string_keyed.
  - reflexivity.
Qed.

Lemma invalid_utf8_rejected_witness :
  NewValue (DString None bad_utf8) = Err (ErrInvalidUTF8 bad_utf8) /\
  (forall y,
      NewValue
        (DSliceOf
           [DStruct "main.S"
                    (inr [("f", DMap (Some "main.Labels") TString TString
                                     [(DString None bad_utf8, DString None "v")])])])
      <> Ok y) /\
  NewValue
    (DMapOf
       [("a", DNil);
        ("b", DStruct "main.S"
                      (inr [("f", DMap None TString TString
                                       [(DString None "x", DString None "v");
                                        (DString None bad_utf8, DString None "w")])]))])
  = Err (ErrConvertStruct (ErrConvertStruct (ErrConvertStruct
                                               (ErrInvalidUTF8 bad_utf8)))) /\
  NewStruct [("a", DNil); (bad_utf8, DNil); ("b", DNil)]
  = Err (ErrInvalidUTF8 bad_utf8) /\
  NewStruct [("a", DNil); ("b", DOther None (OChan (TInt KInt))); (bad_utf8, DNil)]
  = Err (ErrInvalidType "chan int").
Proof.
  destruct invalid_utf8_rejected as (Hstring & Hinside & Hfirst & Hkey & Hvalue & _).
  assert (Hpre : entries_encode [("a", DNil)]).
  { repeat constructor. eexists; reflexivity. }
  split; [apply Hstring; reflexivity|].
  split.
  { apply Hinside.
    eapply bad_key_in_slice; [reflexivity|now left|].
    eapply bad_key_in_map; [reflexivity|now left|].
    eapply bad_key_here; [reflexivity|now left|reflexivity]. }
  split.
  { apply (Hfirst _ bad_utf8 3%nat).
    eapply (@bad_key_first_below _ [("a", DNil)] "b" _ []);
      [reflexivity|exact Hpre|reflexivity|].
    eapply (@bad_key_first_below _ [] "f" _ []);
      [reflexivity|constructor|reflexivity|].
    eapply (@bad_key_first_here _ [("x", DString None "v")] bad_utf8
                                (DString None "w") []);
      [reflexivity| |reflexivity].
    repeat constructor. eexists; reflexivity. }
  split.
  { apply (Hkey [("a", DNil)] bad_utf8 DNil [("b", DNil)] Hpre). reflexivity. }
  { apply (Hvalue [("a", DNil)] "b" (DOther None (OChan (TInt KInt)))
                  [(bad_utf8, DNil)] (ErrInvalidType "chan int") Hpre);
      reflexivity. }
Defined.
